(** * iot_labs: road-surface telemetry pipeline

  A shallow embedding of the four services of the repository:

  - [Edge]  : [edge/app/usecases/data_processing.py], the road-state
              classifier [process_agent_data];
  - [Hub]   : [hub/app/adapters/store_api_adapter.py], the buffering
              forwarder [StoreApiAdapter];
  - [Store] : [store/main.py], the ingestion endpoint, the CRUD
              endpoints and the websocket subscription registry;
  - [Agent] : [agent/src/file_datasource.py], the CSV readers and the
              datasource that pairs them.

  Python values are modelled by the types the code annotates them with;
  mutation of [self] or of module globals is explicit state passing, and
  exceptions are a constructor of the result type. *)

From Stdlib Require Import QArith.
From stdpp Require Import gmap strings list.

Local Open Scope Z_scope.

(** ** Data model

    The pydantic models of [store/main.py] (lines 64-96). *)

Module Entities.

(** A Python [float]: a finite value (every binary64 number is a rational),
  an infinity, or NaN.  Comparisons between an [int] and a [float] are
  exact in Python, so the rational order is the one the code sees. *)
Inductive pyfloat :=
| Finite (q : Q)
| Inf (negative : bool)
| NaN.

(** [datetime]: an instant, kept as a number of microseconds. *)
Definition datetime := Z.

Record AccelerometerData := mkAccelerometerData {
x : pyfloat;
y : pyfloat;
z : pyfloat }.

Record GpsData := mkGpsData {
latitude : pyfloat;
longitude : pyfloat }.

(** Modelled from the spec: the entity classes [AgentData] and
    [ProcessedAgentData] that the edge and hub services import from
    [app.entities] are not among the sources.  They are the AgentRecord and
    ProcessedRecord of section 3 of the specification, which the services
    exchange as JSON; the records below, with the field names of the models
    of [store/main.py], stand for them in all three services. *)
Record AgentData := mkAgentData {
user_id : Z;
accelerometer : AccelerometerData;
gps : GpsData;
timestamp : datetime }.

Record ProcessedAgentData := mkProcessedAgentData {
road_state : string;
agent_data : AgentData }.

End Entities.
Export Entities.

(** [c < f] and [f < c], [f <= c] for an [int] constant [c] and a float [f];
  every comparison with NaN is false. *)
Definition int_lt_float (c : Z) (f : pyfloat) : bool :=
match f with
| Finite q => (c * QDen q <? Qnum q)
| Inf negative => negb negative
| NaN => false
end.

Definition float_lt_int (f : pyfloat) (c : Z) : bool :=
match f with
| Finite q => (Qnum q <? c * QDen q)
| Inf negative => negative
| NaN => false
end.

Definition float_le_int (f : pyfloat) (c : Z) : bool :=
match f with
| Finite q => (Qnum q <=? c * QDen q)
| Inf negative => negative
| NaN => false
end.

(** Two floats with the same value ([==] in Python, NaN set apart: here a
    NaN is only matched with a NaN). *)
Definition float_eq (f g : pyfloat) : Prop :=
  match f, g with
  | Finite p, Finite q => (p == q)%Q
  | Inf s, Inf t => s = t
  | NaN, NaN => True
  | _, _ => False
  end.

(** ** edge/app/usecases/data_processing.py *)
Module Edge.

(** The entries of the dict [pit_intervals]. *)
Record interval := mkInterval { start : Z; end_ : Z }.

Definition pit_intervals_normal : interval :=
  {| start := 14000; end_ := 18000 |}.
Definition pit_intervals_small_pits_less : interval :=
  {| start := 12000; end_ := 14000 |}.
Definition pit_intervals_small_pits_greater : interval :=
  {| start := 18000; end_ := 20000 |}.

Definition process_agent_data (agent_data : AgentData) : ProcessedAgentData :=
  let z_acceleration := z (accelerometer agent_data) in
  let road_state :=
    if int_lt_float (start pit_intervals_normal) z_acceleration
       && float_le_int z_acceleration (end_ pit_intervals_normal)
    then "normal"%string
    else if (int_lt_float (start pit_intervals_small_pits_less) z_acceleration
             && float_lt_int z_acceleration (end_ pit_intervals_small_pits_less))
            || (int_lt_float (start pit_intervals_small_pits_greater) z_acceleration
                && float_lt_int z_acceleration (end_ pit_intervals_small_pits_greater))
    then "small pits"%string
    else "large pits"%string in
  {| road_state := road_state; agent_data := agent_data |}.

(** The label given to a sample whose [z] is [f], the other fields being
    arbitrary. *)
Definition label_of (f : pyfloat) : string :=
  road_state (process_agent_data
    {| user_id := 0;
       accelerometer := {| x := Finite 0; y := Finite 0; z := f |};
       gps := {| latitude := Finite 0; longitude := Finite 0 |};
       timestamp := 0 |}).

(** Two samples used in the examples below. *)
Definition sample_18000 : AgentData :=
  {| user_id := 1;
     accelerometer := {| x := Finite 0; y := Finite 0; z := Finite (inject_Z 18000) |};
     gps := {| latitude := Finite 50; longitude := Finite 30 |};
     timestamp := 1704067200000000 |}.

Definition sample_18000' : AgentData :=
  {| user_id := 7;
     accelerometer := {| x := Finite 3; y := NaN; z := Finite (36000 # 2) |};
     gps := {| latitude := Finite 48; longitude := Finite 2 |};
     timestamp := 0 |}.

End Edge.

(** ** hub/app/adapters/store_api_adapter.py *)
Module Hub.

(** What [send_data] reads of a [requests.Response]. *)
Record Response := mkResponse {
  ok : bool;
  status_code : Z }.

(** What the body of the [try] in [send_data] meets: the conversion or
    [requests.post] raises, or [requests.post] returns a response. *)
Inductive post_outcome :=
| PostRaises
| PostReturns (response : Response).

Record StoreApiAdapter := mkStoreApiAdapter {
  api_base_url : string;
  buffer_size : Z;
  buffer : list ProcessedAgentData }.

(** [__init__] with its default [buffer_size=10]. *)
Definition init (api_base_url : string) (buffer_size : option Z) : StoreApiAdapter :=
  {| api_base_url := api_base_url;
     buffer_size := default 10 buffer_size;
     buffer := [] |}.

Definition set_buffer (b : list ProcessedAgentData) (self : StoreApiAdapter)
    : StoreApiAdapter :=
  {| api_base_url := api_base_url self;
     buffer_size := buffer_size self;
     buffer := b |}.

(** [send_data]: true exactly when the POST returned and [response.ok]. *)
Definition send_data (self : StoreApiAdapter) (data : list ProcessedAgentData)
    (net : post_outcome) : bool :=
  match net with
  | PostReturns response => if ok response then true else false
  | PostRaises => false
  end.

(** [save_data]: the result, the adapter afterwards, and the batches
    handed to [send_data] during the call (oldest first).  [send_data]
    catches every exception itself, so the [except] branch of [save_data]
    is not reached from it. *)
Definition save_data (self : StoreApiAdapter)
    (processed_agent_data_batch : list ProcessedAgentData) (net : post_outcome)
    : bool * StoreApiAdapter * list (list ProcessedAgentData) :=
  let self1 := set_buffer (buffer self ++ processed_agent_data_batch) self in
  if buffer_size self1 <=? Z.of_nat (length (buffer self1)) then
    let success := send_data self1 (buffer self1) net in
    (success, set_buffer [] self1, [buffer self1])
  else (true, self1, []).

(** A run of [save_data] calls, each with the network's answer to the
    POST it may make: the results in call order, the adapter at the end
    and all the batches handed to [send_data]. *)
Fixpoint save_all (self : StoreApiAdapter)
    (calls : list (list ProcessedAgentData * post_outcome))
    : list bool * StoreApiAdapter * list (list ProcessedAgentData) :=
  match calls with
  | [] => ([], self, [])
  | (batch, net) :: rest =>
      let '(r, self1, sent) := save_data self batch net in
      let '(rs, self2, sent') := save_all self1 rest in
      (r :: rs, self2, sent ++ sent')
  end.

(** The records of a run of calls, in enqueue order. *)
Definition enqueued (calls : list (list ProcessedAgentData * post_outcome))
    : list ProcessedAgentData :=
  concat (map fst calls).

(** Two processed records and two adapters used in the examples below. *)
Definition rec_a : ProcessedAgentData := Edge.process_agent_data Edge.sample_18000.
Definition rec_b : ProcessedAgentData := Edge.process_agent_data Edge.sample_18000'.

Definition adapter_2 : StoreApiAdapter := init "http://store:8000" (Some 2).
Definition adapter_2_holding_a : StoreApiAdapter := set_buffer [rec_a] adapter_2.

Definition http_500 : post_outcome :=
  PostReturns {| ok := false; status_code := 500 |}.
Definition http_200 : post_outcome :=
  PostReturns {| ok := true; status_code := 200 |}.

End Hub.

(** ** store/main.py *)

(** [ProcessedAgentDataInDB]: a row of the table [processed_agent_data]. *)
Module InDB.
Record row := mk {
  id : Z;
  road_state : string;
  user_id : Z;
  x : pyfloat;
  y : pyfloat;
  z : pyfloat;
  latitude : pyfloat;
  longitude : pyfloat;
  timestamp : datetime }.
End InDB.

Module Store.

(** A [WebSocket] object is compared and hashed by identity. *)
Definition WebSocket := positive.

(** What [session.execute] returns for INSERT, UPDATE and DELETE. *)
Record CursorResult := mkCursorResult {
  rowcount : Z;
  inserted_primary_key : option Z }.

(** [CursorResult] defines neither [__bool__] nor [__len__]: as a
    condition every instance is true. *)
Definition CursorResult_bool (result : CursorResult) : bool := true.

(** The values passed as [data] to [send_data_to_subscribers]: a value
    [json.dumps] accepts, kept as the text it is dumped to, or the
    [CursorResult] the ingestion endpoint passes. *)
Inductive PyValue :=
| PyJson (text : string)
| PyCursorResult (result : CursorResult).

Inductive exn :=
| KeyError
| TypeError
| RuntimeError
| SQLAlchemyError
| HTTPException (status_code : Z) (detail : string).

(** A commit, with the committed rows of the table after it, and a call
    [send_data_to_subscribers(user_id, data)]. *)
Inductive event :=
| Committed (rows : list InDB.row)
| Notified (user_id : Z) (data : PyValue).

Inductive outcome (A : Type) :=
| Ok (a : A)
| Raise (e : exn).
Arguments Ok {A} a.
Arguments Raise {A} e.

(** The state the service runs in.  [table] holds the committed rows and
    [session] the rows as the open session sees them; [closed] is the set
    of sockets on which [send_json] raises; [outbox] lists the completed
    [send_json] calls and [trace] the commits and the calls of
    [send_data_to_subscribers], both oldest first. *)
Record World := mkWorld {
  table : list InDB.row;
  session : list InDB.row;
  next_id : Z;
  subscriptions : gmap Z (gset WebSocket);
  closed : gset WebSocket;
  outbox : list (WebSocket * string);
  trace : list event }.

Definition set_table (t : list InDB.row) (w : World) : World :=
  mkWorld t (session w) (next_id w) (subscriptions w) (closed w) (outbox w) (trace w).
Definition set_session (s : list InDB.row) (w : World) : World :=
  mkWorld (table w) s (next_id w) (subscriptions w) (closed w) (outbox w) (trace w).
Definition set_next_id (n : Z) (w : World) : World :=
  mkWorld (table w) (session w) n (subscriptions w) (closed w) (outbox w) (trace w).
Definition set_subscriptions (s : gmap Z (gset WebSocket)) (w : World) : World :=
  mkWorld (table w) (session w) (next_id w) s (closed w) (outbox w) (trace w).
Definition set_outbox (o : list (WebSocket * string)) (w : World) : World :=
  mkWorld (table w) (session w) (next_id w) (subscriptions w) (closed w) o (trace w).
Definition set_trace (t : list event) (w : World) : World :=
  mkWorld (table w) (session w) (next_id w) (subscriptions w) (closed w) (outbox w) t.

(** *** State and exception monad *)
Definition M (A : Type) : Type := World → outcome A * World.

Definition ret {A} (a : A) : M A := λ w, (Ok a, w).
Definition raise {A} (e : exn) : M A := λ w, (Raise e, w).
Definition bind {A B} (m : M A) (k : A → M B) : M B :=
  λ w, match m w with
       | (Ok a, w1) => k a w1
       | (Raise e, w1) => (Raise e, w1)
       end.
Definition try_except {A} (m : M A) (handler : exn → M A) : M A :=
  λ w, match m w with
       | (Ok a, w1) => (Ok a, w1)
       | (Raise e, w1) => handler e w1
       end.
Definition get : M World := λ w, (Ok w, w).
Definition modify (f : World → World) : M unit := λ w, (Ok tt, f w).

Declare Scope py_scope.
Delimit Scope py_scope with py.
Notation "v <- m ;; k" := (bind m (λ v, k))
  (at level 100, m at next level, right associativity) : py_scope.
Notation "m ;; k" := (bind m (λ _, k))
  (at level 100, right associativity) : py_scope.
Local Open Scope py_scope.

(** [for v in l: body(v)] *)
Fixpoint for_each {A} (l : list A) (body : A → M unit) : M unit :=
  match l with
  | [] => ret tt
  | v :: rest => body v ;; for_each rest body
  end.

(** *** Subscriptions (lines 100-121) *)

(** Lines 107-109 of [websocket_endpoint], after [accept]. *)
Definition subscribe (user_id : Z) (websocket : WebSocket) : M unit :=
  modify (λ w,
    let subs := subscriptions w in
    let subs1 :=
      match subs !! user_id with
      | None => <[user_id := ∅]> subs
      | Some _ => subs
      end in
    set_subscriptions
      (<[user_id := default ∅ (subs1 !! user_id) ∪ {[websocket]}]> subs1) w).

(** Line 114, the handler of [WebSocketDisconnect]:
    [subscriptions[user_id].remove(websocket)].  Both the subscript and
    [set.remove] raise [KeyError] on a missing key. *)
Definition unsubscribe (user_id : Z) (websocket : WebSocket) : M unit :=
  w <- get ;;
  match subscriptions w !! user_id with
  | None => raise KeyError
  | Some wss =>
      if decide (websocket ∈ wss)
      then modify (set_subscriptions (<[user_id := wss ∖ {[websocket]}]> (subscriptions w)))
      else raise KeyError
  end.

(** What [receive_text] yields. *)
Inductive ws_event :=
| Text (s : string)
| Disconnect.

(** The [while True] loop over the messages that arrive; when [inbox] is
    used up the coroutine stays suspended in [receive_text]. *)
Fixpoint websocket_endpoint_loop (websocket : WebSocket) (user_id : Z)
    (inbox : list ws_event) : M unit :=
  match inbox with
  | [] => ret tt
  | Text _ :: rest => websocket_endpoint_loop websocket user_id rest
  | Disconnect :: _ => unsubscribe user_id websocket
  end.

Definition websocket_endpoint (websocket : WebSocket) (user_id : Z)
    (inbox : list ws_event) : M unit :=
  subscribe user_id websocket ;;
  websocket_endpoint_loop websocket user_id inbox.

(** [json.dumps] raises [TypeError] on an object it cannot serialise. *)
Definition json_dumps (data : PyValue) : M string :=
  match data with
  | PyJson text => ret text
  | PyCursorResult _ => raise TypeError
  end.

(** [websocket.send_json]: raises on a closed socket, else the text is
    sent. *)
Definition send_json (websocket : WebSocket) (text : string) : M unit :=
  w <- get ;;
  if decide (websocket ∈ closed w)
  then raise RuntimeError
  else modify (set_outbox (outbox w ++ [(websocket, text)])).

(** Lines 118-121.  The call is first recorded in [trace].  The loop body
    evaluates [json.dumps(data)] at each turn, so it is not evaluated when
    there is no subscriber; no other coroutine changes the set between two
    turns in this sequential model. *)
Definition send_data_to_subscribers (user_id : Z) (data : PyValue) : M unit :=
  modify (λ w, set_trace (trace w ++ [Notified user_id data]) w) ;;
  w <- get ;;
  match subscriptions w !! user_id with
  | Some wss =>
      for_each (elements wss)
        (λ websocket, text <- json_dumps data ;; send_json websocket text)
  | None => ret tt
  end.

(** *** The record store *)

(** What the database does to one record of an ingestion call. *)
Inductive db_fault :=
| NoFault
| ExecuteRaises
| CommitRaises.

(** [with SessionLocal() as ...]: a new session sees the committed rows. *)
Definition SessionLocal : M unit :=
  modify (λ w, set_session (table w) w).

Definition commit (fault : db_fault) : M unit :=
  match fault with
  | CommitRaises => raise SQLAlchemyError
  | _ => modify (λ w, set_trace (trace w ++ [Committed (session w)])
                       (set_table (session w) w))
  end.

Definition rollback : M unit :=
  modify (λ w, set_session (table w) w).

(** The row [processed_agent_data.insert().values(...)] describes. *)
Definition insert_values (item : ProcessedAgentData) (id : Z) : InDB.row :=
  {| InDB.id := id;
     InDB.road_state := road_state item;
     InDB.user_id := user_id (agent_data item);
     InDB.x := x (accelerometer (agent_data item));
     InDB.y := y (accelerometer (agent_data item));
     InDB.z := z (accelerometer (agent_data item));
     InDB.latitude := latitude (gps (agent_data item));
     InDB.longitude := longitude (gps (agent_data item));
     InDB.timestamp := timestamp (agent_data item) |}.

Definition execute_insert (fault : db_fault) (item : ProcessedAgentData)
    : M CursorResult :=
  match fault with
  | ExecuteRaises => raise SQLAlchemyError
  | _ =>
      w <- get ;;
      modify (λ w, set_next_id (next_id w + 1)
                     (set_session (session w ++ [insert_values item (next_id w)]) w)) ;;
      ret {| rowcount := 1; inserted_primary_key := Some (next_id w) |}
  end.

Definition has_id (id : Z) (r : InDB.row) : bool := InDB.id r =? id.

(** [session.execute(select(...).where(id == ...)).first()] *)
Definition execute_select_first (id : Z) : M (option InDB.row) :=
  w <- get ;;
  ret (List.find (has_id id) (session w)).

Definition execute_select_all : M (list InDB.row) :=
  w <- get ;;
  ret (session w).

(** The rows after [UPDATE ... WHERE id = ...]: the database writes a new
    version of each row that matches, and a select then returns the new
    versions after the rows that were not touched. *)
Definition updated_rows (id : Z) (data : ProcessedAgentData) (rows : list InDB.row)
    : list InDB.row :=
  filter (λ r, has_id id r = false) rows
  ++ map (λ r, insert_values data (InDB.id r)) (filter (λ r, has_id id r = true) rows).

Definition execute_update (id : Z) (data : ProcessedAgentData) : M CursorResult :=
  w <- get ;;
  modify (set_session (updated_rows id data (session w))) ;;
  ret {| rowcount := Z.of_nat (length (filter (λ r, has_id id r = true) (session w)));
         inserted_primary_key := None |}.

Definition execute_delete (id : Z) : M CursorResult :=
  w <- get ;;
  modify (set_session (filter (λ r, has_id id r = false) (session w))) ;;
  ret {| rowcount := Z.of_nat (length (filter (λ r, has_id id r = true) (session w)));
         inserted_primary_key := None |}.

(** *** Endpoints (lines 126-228) *)

(** The [try] block of the loop of [create_processed_agent_data]
    (lines 133-150). *)
Definition persist_and_notify (fault : db_fault) (item : ProcessedAgentData) : M unit :=
  result <- execute_insert fault item ;;
  commit fault ;;
  send_data_to_subscribers (user_id (agent_data item)) (PyCursorResult result).

(** The [for] loop of [create_processed_agent_data], from record [k] of
    the call on; [faults k] is what the database does to record [k]
    (counted from 0). *)
Fixpoint create_loop (faults : nat → db_fault) (k : nat)
    (data : list ProcessedAgentData) : M unit :=
  match data with
  | [] => ret tt
  | item :: rest =>
      try_except (persist_and_notify (faults k) item)
        (λ e, rollback ;; raise e) ;;
      create_loop faults (S k) rest
  end.

Definition create_processed_agent_data (faults : nat → db_fault)
    (data : list ProcessedAgentData) : M unit :=
  SessionLocal ;;
  create_loop faults 0 data.

Definition read_processed_agent_data (processed_agent_data_id : Z) : M InDB.row :=
  SessionLocal ;;
  result <- execute_select_first processed_agent_data_id ;;
  match result with
  | None => raise (HTTPException 404 "Data not found")
  | Some r => ret r
  end.

Definition list_processed_agent_data : M (list InDB.row) :=
  SessionLocal ;;
  execute_select_all.

(** The value returned is [None] when the final select finds no row. *)
Definition update_processed_agent_data (processed_agent_data_id : Z)
    (data : ProcessedAgentData) : M (option InDB.row) :=
  SessionLocal ;;
  result <- execute_update processed_agent_data_id data ;;
  if negb (CursorResult_bool result)
  then raise (HTTPException 404 "Data not found")
  else
    commit NoFault ;;
    execute_select_first processed_agent_data_id.

Definition delete_processed_agent_data (processed_agent_data_id : Z)
    : M (option InDB.row) :=
  SessionLocal ;;
  obj_to_delete <- execute_select_first processed_agent_data_id ;;
  result <- execute_delete processed_agent_data_id ;;
  if negb (CursorResult_bool result)
  then raise (HTTPException 404 "Data not found")
  else
    commit NoFault ;;
    ret obj_to_delete.

(** *** Vocabulary of the statements *)

(** The channels registered under [user_id]. *)
Definition channels (user_id : Z) (w : World) : gset WebSocket :=
  default ∅ (subscriptions w !! user_id).

(** The [send_json] calls completed between [w] and a later [w']. *)
Definition sent_during (w w' : World) : list (WebSocket * string) :=
  drop (length (outbox w)) (outbox w').

(** The texts a socket was sent, among the calls of [log]. *)
Definition deliveries_to (websocket : WebSocket) (log : list (WebSocket * string))
    : list string :=
  (filter (λ p, p.1 = websocket) log).*2.

(** The trace of ingesting [items] without error, from a table [rows] and
    with [id] the next identifier: each record is committed, then
    notified. *)
Fixpoint ingest_trace (rows : list InDB.row) (id : Z)
    (items : list ProcessedAgentData) : list event :=
  match items with
  | [] => []
  | item :: rest =>
      let rows1 := rows ++ [insert_values item id] in
      Committed rows1
      :: Notified (user_id (agent_data item))
           (PyCursorResult {| rowcount := 1; inserted_primary_key := Some id |})
      :: ingest_trace rows1 (id + 1) rest
  end.

(** The rows ingesting [items] inserts, [id] being the next identifier. *)
Fixpoint ingest_rows (id : Z) (items : list ProcessedAgentData) : list InDB.row :=
  match items with
  | [] => []
  | item :: rest => insert_values item id :: ingest_rows (id + 1) rest
  end.

(** The world after ingesting [data] without error: the rows are committed,
    the identifiers used up and the trace extended; the session sees the
    table. *)
Definition ingested (data : list ProcessedAgentData) (w : World) : World :=
  mkWorld (table w ++ ingest_rows (next_id w) data)
          (table w ++ ingest_rows (next_id w) data)
          (next_id w + Z.of_nat (length data))
          (subscriptions w) (closed w) (outbox w)
          (trace w ++ ingest_trace (table w) (next_id w) data).

(** The identifiers of the table are below the next identifier. *)
Definition ids_below_next (w : World) : Prop :=
  ∀ r, r ∈ table w → InDB.id r < next_id w.

(** Worlds used in the examples below: nothing stored and nobody
    subscribed; socket 1 subscribed to user 5 and closed; sockets 1 and 2
    subscribed to user 5 and 2 closed. *)
Definition world0 : World :=
  {| table := []; session := []; next_id := 1;
     subscriptions := ∅; closed := ∅; outbox := []; trace := [] |}.

Definition world_closed_1 : World :=
  {| table := []; session := []; next_id := 1;
     subscriptions := {[ 5 := {[ 1%positive ]} ]};
     closed := {[ 1%positive ]}; outbox := []; trace := [] |}.

Definition world_closed_2 : World :=
  {| table := []; session := []; next_id := 1;
     subscriptions := {[ 5 := {[ 1%positive; 2%positive ]} ]};
     closed := {[ 2%positive ]}; outbox := []; trace := [] |}.

(** Sockets 1 and 2 subscribed to user 5, socket 1 closed: the iteration
    meets socket 2, which is open, before socket 1.  And socket 2, open,
    alone under user 5. *)
Definition world_closed_1_of_2 : World :=
  {| table := []; session := []; next_id := 1;
     subscriptions := {[ 5 := {[ 1%positive; 2%positive ]} ]};
     closed := {[ 1%positive ]}; outbox := []; trace := [] |}.

Definition world_open_2 : World :=
  {| table := []; session := []; next_id := 1;
     subscriptions := {[ 5 := {[ 2%positive ]} ]};
     closed := ∅; outbox := []; trace := [] |}.

End Store.

(** ** agent/src/file_datasource.py *)
Module Agent.

(** A row as [DictReader] yields it: the values of a line of the file
    under the names of the header line. *)
Definition csv_row := gmap string string.

Inductive exn :=
| AttributeError
| ValueError
| FileNotFoundError
| ValidationError (messages : string).

Inductive outcome (A : Type) :=
| Ok (a : A)
| Raise (e : exn).
Arguments Ok {A} a.
Arguments Raise {A} e.

(** The file system at [open]: the data rows of the CSV file of that name
    (the lines after the header that [DictReader] yields), when it
    exists. *)
Definition file_system := string → option (list csv_row).

(** The attributes [file] and [reader], which [startReading] sets one after
    the other: the rows of the file, those the [DictReader] has not
    yielded yet, and whether the file was closed. *)
Record open_file := mkOpenFile {
  rows : list csv_row;
  remaining : list csv_row;
  closed : bool }.

Module CSVDatasourceReader.
Section Reader.
Context {A : Type}.

(** [schema] is [self.schema.load], a marshmallow schema that is not among
    the sources: it is given the row, or [None], and returns the loaded
    object or raises.  [opened] is [None] until [startReading] has set
    [file] and [reader]. *)
Record t := mk {
  filename : string;
  schema : option csv_row → outcome A;
  opened : option open_file }.

Definition set_opened (o : option open_file) (self : t) : t :=
  {| filename := filename self; schema := schema self; opened := o |}.

Definition init (filename : string) (schema : option csv_row → outcome A) : t :=
  {| filename := filename; schema := schema; opened := None |}.

Definition startReading (fs : file_system) (self : t) : outcome unit * t :=
  match fs (filename self) with
  | None => (Raise FileNotFoundError, self)
  | Some rs =>
      (Ok tt, set_opened (Some {| rows := rs; remaining := rs; closed := false |}) self)
  end.

(** [next(self.reader, None)] *)
Definition next (f : open_file) : outcome (option csv_row) * open_file :=
  if closed f then (Raise ValueError, f)
  else match remaining f with
       | row :: rest =>
           (Ok (Some row), {| rows := rows f; remaining := rest; closed := closed f |})
       | [] => (Ok None, f)
       end.

(** [self.file.seek(0)] and a new [DictReader]. *)
Definition reset (f : open_file) : outcome unit * open_file :=
  if closed f then (Raise ValueError, f)
  else (Ok tt, {| rows := rows f; remaining := rows f; closed := closed f |}).

Definition read (self : t) : outcome A * t :=
  match opened self with
  | None => (Raise AttributeError, self)
  | Some f =>
      match next f with
      | (Raise e, f1) => (Raise e, set_opened (Some f1) self)
      | (Ok (Some row), f1) => (schema self (Some row), set_opened (Some f1) self)
      | (Ok None, f1) =>
          match reset f1 with
          | (Raise e, f2) => (Raise e, set_opened (Some f2) self)
          | (Ok _, f2) =>
              match next f2 with
              | (Raise e, f3) => (Raise e, set_opened (Some f3) self)
              | (Ok row, f3) => (schema self row, set_opened (Some f3) self)
              end
          end
      end
  end.

(** [if self.file: self.file.close()]: a file object is always true. *)
Definition stopReading (self : t) : outcome unit * t :=
  match opened self with
  | None => (Raise AttributeError, self)
  | Some f =>
      (Ok tt, set_opened (Some {| rows := rows f; remaining := remaining f;
                                  closed := true |}) self)
  end.

(** The reader after [n] calls of [read], and the result of the call
    after them. *)
Definition after_reads (n : nat) (self : t) : t :=
  Nat.iter n (λ s, (read s).2) self.

Definition read_nth (n : nat) (self : t) : outcome A :=
  (read (after_reads n self)).1.

(** The reader has yielded the first [p] rows of [rs] since the file was
    opened or rewound. *)
Definition at_row (rs : list csv_row) (p : nat) (self : t) : Prop :=
  opened self = Some {| rows := rs; remaining := drop p rs; closed := false |}.

End Reader.
Arguments t A : clear implicits.
End CSVDatasourceReader.

Module FileDatasource.
Section Datasource.
Context {Acc Gps : Type}.

(** The dict [self.readers], with its two keys in insertion order. *)
Record t := mk {
  readers_GPS : CSVDatasourceReader.t Gps;
  readers_ACCELEROMETER : CSVDatasourceReader.t Acc }.

(** The dict [read] returns. *)
Record AggregatedData := mkAggregatedData {
  user_id : Z;
  accelerometer : Acc;
  gps : Gps;
  timestamp : datetime }.

(** [__init__]; [GpsSchema] and [AccelerometerSchema] are the [load] of the
    two schemas. *)
Definition init (accelerometer_filename gps_filename : string)
    (AccelerometerSchema : option csv_row → outcome Acc)
    (GpsSchema : option csv_row → outcome Gps) : t :=
  {| readers_GPS := CSVDatasourceReader.init gps_filename GpsSchema;
     readers_ACCELEROMETER :=
       CSVDatasourceReader.init accelerometer_filename AccelerometerSchema |}.

(** [read]: [now] is what [datetime.now()] returns and [USER_ID] is
    [config.USER_ID].  Every exception is caught and printed, and the
    method then returns [None]. *)
Definition read (now : datetime) (USER_ID : Z) (self : t) : option AggregatedData * t :=
  match CSVDatasourceReader.read (readers_ACCELEROMETER self) with
  | (Raise _, acc_reader) =>
      (None, {| readers_GPS := readers_GPS self; readers_ACCELEROMETER := acc_reader |})
  | (Ok acc, acc_reader) =>
      match CSVDatasourceReader.read (readers_GPS self) with
      | (Raise _, gps_reader) =>
          (None, {| readers_GPS := gps_reader; readers_ACCELEROMETER := acc_reader |})
      | (Ok gps, gps_reader) =>
          (Some {| user_id := USER_ID; accelerometer := acc; gps := gps;
                   timestamp := now |},
           {| readers_GPS := gps_reader; readers_ACCELEROMETER := acc_reader |})
      end
  end.

(** [for reader in self.readers.values(): reader.startReading()] *)
Definition startReading (fs : file_system) (self : t) : outcome unit * t :=
  match CSVDatasourceReader.startReading fs (readers_GPS self) with
  | (Raise e, gps_reader) =>
      (Raise e, {| readers_GPS := gps_reader;
                   readers_ACCELEROMETER := readers_ACCELEROMETER self |})
  | (Ok _, gps_reader) =>
      match CSVDatasourceReader.startReading fs (readers_ACCELEROMETER self) with
      | (r, acc_reader) =>
          (r, {| readers_GPS := gps_reader; readers_ACCELEROMETER := acc_reader |})
      end
  end.

Definition stopReading (self : t) : outcome unit * t :=
  match CSVDatasourceReader.stopReading (readers_GPS self) with
  | (Raise e, gps_reader) =>
      (Raise e, {| readers_GPS := gps_reader;
                   readers_ACCELEROMETER := readers_ACCELEROMETER self |})
  | (Ok _, gps_reader) =>
      match CSVDatasourceReader.stopReading (readers_ACCELEROMETER self) with
      | (r, acc_reader) =>
          (r, {| readers_GPS := gps_reader; readers_ACCELEROMETER := acc_reader |})
      end
  end.

(** The datasource after [n] calls of [read], and the result of the call
    after them; [now k] is the clock at call [k]. *)
Fixpoint after_reads (now : nat → datetime) (USER_ID : Z) (n : nat) (self : t) : t :=
  match n with
  | O => self
  | S m => (read (now m) USER_ID (after_reads now USER_ID m self)).2
  end.

Definition read_nth (now : nat → datetime) (USER_ID : Z) (n : nat) (self : t)
    : option AggregatedData :=
  (read (now n) USER_ID (after_reads now USER_ID n self)).1.

End Datasource.
Arguments t Acc Gps : clear implicits.
Arguments AggregatedData Acc Gps : clear implicits.
End FileDatasource.

(** Rows, two files and two schemas used in the examples below: the
    schemas load the column [z], respectively [lat], as it is written. *)
Definition row_of (column value : string) : csv_row := {[ column := value ]}.

Definition example_fs : file_system :=
  λ name,
    if String.eqb name "accelerometer.csv"
    then Some [row_of "z" "16000"; row_of "z" "17000"; row_of "z" "13000"]
    else if String.eqb name "gps.csv"
    then Some [row_of "lat" "50.4"; row_of "lat" "50.5"]
    else if String.eqb name "empty.csv" then Some []
    else None.

Definition column_schema (column : string) (row : option csv_row) : outcome string :=
  match row with
  | None => Raise (ValidationError "Invalid input type.")
  | Some r =>
      match r !! column with
      | Some v => Ok v
      | None => Raise (ValidationError "Missing data for required field.")
      end
  end.

Definition example_datasource : FileDatasource.t string string :=
  FileDatasource.init "accelerometer.csv" "gps.csv" (column_schema "z") (column_schema "lat").

End Agent.

(** * Properties *)

(** ** The classifier *)
Section Classifier.

Import Edge.

Lemma int_lt_float_finite (c : Z) (q : Q) :
  int_lt_float c (Finite q) = true ↔ (inject_Z c < q)%Q.
Proof.
  unfold int_lt_float, Qlt, inject_Z; cbn [Qnum Qden].
  rewrite Z.ltb_lt. lia.
Qed.

Lemma float_lt_int_finite (q : Q) (c : Z) :
  float_lt_int (Finite q) c = true ↔ (q < inject_Z c)%Q.
Proof.
  unfold float_lt_int, Qlt, inject_Z; cbn [Qnum Qden].
  rewrite Z.ltb_lt. lia.
Qed.

Lemma float_le_int_finite (q : Q) (c : Z) :
  float_le_int (Finite q) c = true ↔ (q <= inject_Z c)%Q.
Proof.
  unfold float_le_int, Qle, inject_Z; cbn [Qnum Qden].
  rewrite Z.leb_le. lia.
Qed.

Lemma road_state_label_of (a : AgentData) :
  road_state (process_agent_data a) = label_of (z (accelerometer a)).
Proof. reflexivity. Qed.

Example label_14000 : label_of (Finite (inject_Z 14000)) = "large pits"%string.
Proof. reflexivity. Qed.
Example label_18000 : label_of (Finite (inject_Z 18000)) = "normal"%string.
Proof. reflexivity. Qed.
Example label_13999_5 : label_of (Finite (27999 # 2)) = "small pits"%string.
Proof. reflexivity. Qed.
Example label_nan : label_of NaN = "large pits"%string.
Proof. reflexivity. Qed.

Local Ltac order_cases :=
  unfold Qlt, Qle, Qeq, inject_Z in *; cbn [Qnum Qden] in *;
  repeat match goal with
         | |- context [(?a <? ?b)%Z] => destruct (Z.ltb_spec a b)
         | |- context [(?a <=? ?b)%Z] => destruct (Z.leb_spec a b)
         end;
  cbn [andb orb road_state]; repeat split; intros; try discriminate;
  try reflexivity; try lia.

(** C3.  The label is "normal" exactly when 14000 < z <= 18000,
    "small pits" exactly when 12000 < z < 14000 or 18000 < z < 20000 and
    "large pits" in every other case (infinities and NaN included); at
    z = 14000, 12000 and 20000 it is "large pits" and at z = 18000 it is
    "normal". *)
Theorem process_agent_data_thresholds (a : AgentData) :
  let label := road_state (process_agent_data a) in
  match z (accelerometer a) with
  | Finite q =>
      (label = "normal"%string ↔ (inject_Z 14000 < q ∧ q <= inject_Z 18000)%Q)
      ∧ (label = "small pits"%string ↔
           ((inject_Z 12000 < q ∧ q < inject_Z 14000)
            ∨ (inject_Z 18000 < q ∧ q < inject_Z 20000))%Q)
      ∧ (label = "large pits"%string ↔
           (¬ (inject_Z 14000 < q ∧ q <= inject_Z 18000)
            ∧ ¬ ((inject_Z 12000 < q ∧ q < inject_Z 14000)
                 ∨ (inject_Z 18000 < q ∧ q < inject_Z 20000)))%Q)
      ∧ ((q == inject_Z 14000 ∨ q == inject_Z 12000 ∨ q == inject_Z 20000)%Q →
         label = "large pits"%string)
      ∧ ((q == inject_Z 18000)%Q → label = "normal"%string)
  | Inf _ | NaN => label = "large pits"%string
  end.
Proof.
  intros label. subst label. rewrite road_state_label_of.
  destruct (z (accelerometer a)) as [q | [] | ]; try reflexivity.
  unfold label_of, process_agent_data, int_lt_float, float_lt_int, float_le_int.
  cbn [z accelerometer start end_ pit_intervals_normal
       pit_intervals_small_pits_less pit_intervals_small_pits_greater].
  order_cases.
Qed.

Lemma process_agent_data_thresholds_witness :
  road_state (process_agent_data sample_18000) = "normal"%string.
Proof.
  pose proof (process_agent_data_thresholds sample_18000) as H.
  cbn [sample_18000 z accelerometer] in H.
  destruct H as (_ & _ & _ & _ & H). apply H. reflexivity.
Defined.

Lemma float_eq_refl (f : pyfloat) : float_eq f f.
Proof. destruct f; cbn; [apply Qeq_refl | reflexivity | exact I]. Qed.

Lemma label_of_float_eq (f g : pyfloat) : float_eq f g → label_of f = label_of g.
Proof.
  destruct f as [p | s | ], g as [q | t | ]; cbn [float_eq]; try contradiction.
  - intros Hpq.
    assert (Hlt : ∀ c, int_lt_float c (Finite p) = int_lt_float c (Finite q)).
    { intros c. apply Bool.eq_true_iff_eq. rewrite !int_lt_float_finite.
      now rewrite Hpq. }
    assert (Hgt : ∀ c, float_lt_int (Finite p) c = float_lt_int (Finite q) c).
    { intros c. apply Bool.eq_true_iff_eq. rewrite !float_lt_int_finite.
      now rewrite Hpq. }
    assert (Hle : ∀ c, float_le_int (Finite p) c = float_le_int (Finite q) c).
    { intros c. apply Bool.eq_true_iff_eq. rewrite !float_le_int_finite.
      now rewrite Hpq. }
    unfold label_of, process_agent_data. cbn [z accelerometer road_state].
    now rewrite !Hlt, !Hgt, !Hle.
  - now intros ->.
  - reflexivity.
Qed.

(** C10.  The label is a function of the accelerometer's z alone: two
    inputs whose z have the same value, whatever their other fields, get
    the same label; and the [agent_data] of the result is the input
    itself. *)
Theorem process_agent_data_frame (a b : AgentData) :
  agent_data (process_agent_data a) = a
  ∧ (float_eq (z (accelerometer a)) (z (accelerometer b)) →
     road_state (process_agent_data a) = road_state (process_agent_data b))
  ∧ (z (accelerometer a) = z (accelerometer b) →
     road_state (process_agent_data a) = road_state (process_agent_data b)).
Proof.
  split; [reflexivity |].
  rewrite !road_state_label_of. split.
  - apply label_of_float_eq.
  - intros ->. reflexivity.
Qed.

Lemma process_agent_data_frame_witness :
  agent_data (process_agent_data sample_18000) = sample_18000
  ∧ road_state (process_agent_data sample_18000)
    = road_state (process_agent_data sample_18000').
Proof.
  destruct (process_agent_data_frame sample_18000 sample_18000') as (H1 & H2 & _).
  split; [exact H1 | apply H2; reflexivity].
Defined.

End Classifier.

(** ** The buffering forwarder *)
Section Forwarder.

Import Hub.

Lemma set_buffer_set_buffer (b b' : list ProcessedAgentData) (self : StoreApiAdapter) :
  set_buffer b (set_buffer b' self) = set_buffer b self.
Proof. reflexivity. Qed.

Lemma set_buffer_same (self : StoreApiAdapter) : set_buffer (buffer self) self = self.
Proof. now destruct self. Qed.

Lemma save_data_below (self : StoreApiAdapter) (batch : list ProcessedAgentData)
    (net : post_outcome) :
  Z.of_nat (length (buffer self ++ batch)) < buffer_size self →
  save_data self batch net = (true, set_buffer (buffer self ++ batch) self, []).
Proof.
  intros Hlt. unfold save_data. cbn [buffer buffer_size set_buffer].
  destruct (Z.leb_spec (buffer_size self) (Z.of_nat (length (buffer self ++ batch))));
    [lia | reflexivity].
Qed.

Lemma save_data_reached (self : StoreApiAdapter) (batch : list ProcessedAgentData)
    (net : post_outcome) :
  buffer_size self ≤ Z.of_nat (length (buffer self ++ batch)) →
  save_data self batch net
  = (send_data self (buffer self ++ batch) net, set_buffer [] self, [buffer self ++ batch]).
Proof.
  intros Hle. unfold save_data. cbn [buffer buffer_size set_buffer].
  destruct (Z.leb_spec (buffer_size self) (Z.of_nat (length (buffer self ++ batch))));
    [reflexivity | lia].
Qed.

Example save_data_success_clears :
  save_data adapter_2_holding_a [rec_b] http_200
  = (true, adapter_2, [[rec_a; rec_b]]).
Proof. reflexivity. Qed.

(** C1, as stated, fails: an adapter holding one record, with threshold 2,
    is given a second record while the store answers 500 (or the POST
    raises).  The call returns false, but the buffer afterwards is empty:
    it equals neither the buffer that was flushed nor the buffer before the
    call. *)
Lemma save_data_failure_discards_buffer :
  send_data adapter_2_holding_a [rec_a; rec_b] http_500 = false
  ∧ save_data adapter_2_holding_a [rec_b] http_500
    = (false, adapter_2, [[rec_a; rec_b]])
  ∧ save_data adapter_2_holding_a [rec_b] PostRaises
    = (false, adapter_2, [[rec_a; rec_b]])
  ∧ buffer (save_data adapter_2_holding_a [rec_b] http_500).1.2 ≠ [rec_a; rec_b]
  ∧ buffer (save_data adapter_2_holding_a [rec_b] http_500).1.2
    ≠ buffer adapter_2_holding_a.
Proof. repeat split; try reflexivity; cbn; discriminate. Qed.

(** C1, amended.  When the threshold is reached and the delivery attempt
    fails, [save_data] returns false and leaves the buffer empty: the batch
    it tried to send is discarded. *)
Theorem save_data_failed_flush (self : StoreApiAdapter)
    (batch : list ProcessedAgentData) (net : post_outcome) :
  buffer_size self ≤ Z.of_nat (length (buffer self ++ batch)) →
  send_data self (buffer self ++ batch) net = false →
  save_data self batch net = (false, set_buffer [] self, [buffer self ++ batch])
  ∧ buffer (save_data self batch net).1.2 = [].
Proof.
  intros Hle Hfail. rewrite save_data_reached by exact Hle.
  rewrite Hfail. split; reflexivity.
Qed.

Lemma save_data_failed_flush_witness :
  save_data adapter_2_holding_a [rec_b] PostRaises
  = (false, set_buffer [] adapter_2_holding_a, [[rec_a; rec_b]])
  ∧ buffer (save_data adapter_2_holding_a [rec_b] PostRaises).1.2 = [].
Proof.
  apply (save_data_failed_flush adapter_2_holding_a [rec_b] PostRaises).
  - vm_compute. discriminate.
  - reflexivity.
Defined.

(** After a failed flush the next flush carries only what was enqueued
    since. *)
Example failed_batch_not_sent_again :
  save_all adapter_2_holding_a [([rec_b], http_500); ([rec_b; rec_b], http_200)]
  = ([false; true], adapter_2, [[rec_a; rec_b]; [rec_b; rec_b]]).
Proof. reflexivity. Qed.

(** Four records enqueued one at a time with threshold 2: a flush at the
    second and another at the fourth. *)
Example save_all_flushes_at_each_crossing :
  save_all adapter_2
    [([rec_a], http_200); ([rec_b], http_200); ([rec_b], http_200); ([rec_a], http_200)]
  = ([true; true; true; true], adapter_2, [[rec_a; rec_b]; [rec_b; rec_a]]).
Proof. reflexivity. Qed.

Lemma save_all_below (calls : list (list ProcessedAgentData * post_outcome)) :
  ∀ self : StoreApiAdapter,
    Z.of_nat (length (buffer self ++ enqueued calls)) < buffer_size self →
    save_all self calls
    = (repeat true (length calls), set_buffer (buffer self ++ enqueued calls) self, []).
Proof.
  induction calls as [| [batch net] rest IH]; intros self Hlt.
  - cbn. now rewrite app_nil_r, set_buffer_same.
  - unfold enqueued in *. cbn [map fst concat] in *.
    rewrite !length_app in Hlt.
    cbn [save_all]. rewrite save_data_below by (rewrite length_app; lia).
    rewrite IH by (cbn [buffer buffer_size set_buffer]; rewrite !length_app; lia).
    cbn [buffer set_buffer length repeat app api_base_url buffer_size].
    now rewrite <- app_assoc.
Qed.

Lemma save_all_snoc (pre : list (list ProcessedAgentData * post_outcome))
    (c : list ProcessedAgentData * post_outcome) :
  ∀ self : StoreApiAdapter,
    (save_all self (pre ++ [c])).2
    = (save_all self pre).2 ++ (save_data (save_all self pre).1.2 c.1 c.2).2.
Proof.
  induction pre as [| [batch net] rest IH]; intros self.
  - destruct c as [b n]. cbn. destruct (save_data self b n) as [[r s1] sent].
    cbn. now rewrite app_nil_r.
  - cbn [app save_all].
    destruct (save_data self batch net) as [[r s1] sent].
    specialize (IH s1).
    destruct (save_all s1 (rest ++ [c])) as [[rs s2] sent2].
    destruct (save_all s1 rest) as [[rs' s2'] sent2'].
    cbn in *. rewrite IH. now rewrite app_assoc.
Qed.

(** The calls up to the first one that makes the buffer reach the
    threshold. *)
Lemma save_all_first_flush (calls : list (list ProcessedAgentData * post_outcome)) :
  ∀ self : StoreApiAdapter,
    calls ≠ [] →
    buffer_size self ≤ Z.of_nat (length (buffer self ++ enqueued calls)) →
    ∃ pre c post,
      calls = pre ++ c :: post
      ∧ (pre ≠ [] → Z.of_nat (length (buffer self ++ enqueued pre)) < buffer_size self)
      ∧ buffer_size self ≤ Z.of_nat (length (buffer self ++ enqueued (pre ++ [c]))).
Proof.
  induction calls as [| [batch net] rest IH]; intros self Hne Hle; [done |].
  destruct (Z.le_gt_cases (buffer_size self) (Z.of_nat (length (buffer self ++ batch))))
    as [Hnow | Hlater].
  - exists [], (batch, net), rest. repeat split; [done |].
    unfold enqueued. cbn. now rewrite app_nil_r.
  - destruct rest as [| c' rest'].
    + unfold enqueued in Hle. cbn in Hle. rewrite app_nil_r in Hle. lia.
    + destruct (IH (set_buffer (buffer self ++ batch) self)) as (pre & c & post & -> & Hpre & Hc).
      * done.
      * cbn [buffer buffer_size set_buffer]. unfold enqueued in *.
        cbn [map fst concat] in *. now rewrite <- app_assoc.
      * exists ((batch, net) :: pre), c, post. split; [reflexivity |].
        cbn [buffer buffer_size set_buffer] in *. unfold enqueued in *.
        cbn [map fst concat app] in *. rewrite <- !app_assoc in *.
        split; [| exact Hc].
        intros _. destruct pre as [| p pre'].
        -- cbn. now rewrite app_nil_r.
        -- apply Hpre. done.
Qed.

(** C4.  A call that leaves the buffer below the threshold makes no
    delivery attempt and returns true; a call at which the buffer reaches
    or exceeds the threshold makes exactly one attempt, with the whole
    buffer as its batch.  In every run of calls that enqueues at least
    [buffer_size] records there is a first such call: the calls before it
    all return true and send nothing, and with it exactly one batch has
    been sent, made of every record enqueued so far. *)
Theorem save_data_flush_at_threshold :
  (∀ self batch net,
     Z.of_nat (length (buffer self ++ batch)) < buffer_size self →
     save_data self batch net = (true, set_buffer (buffer self ++ batch) self, []))
  ∧ (∀ self batch net,
       buffer_size self ≤ Z.of_nat (length (buffer self ++ batch)) →
       (save_data self batch net).2 = [buffer self ++ batch])
  ∧ (∀ self calls,
       calls ≠ [] →
       buffer_size self ≤ Z.of_nat (length (buffer self ++ enqueued calls)) →
       ∃ pre c post,
         calls = pre ++ c :: post
         ∧ save_all self pre
           = (repeat true (length pre), set_buffer (buffer self ++ enqueued pre) self, [])
         ∧ (save_all self (pre ++ [c])).2 = [buffer self ++ enqueued (pre ++ [c])]).
Proof.
  split; [exact save_data_below |].
  split; [intros self batch net Hle; now rewrite save_data_reached |].
  intros self calls Hne Hle.
  destruct (save_all_first_flush calls self Hne Hle) as (pre & c & post & Hcalls & Hpre & Hc).
  exists pre, c, post. split; [exact Hcalls |].
  assert (Hrun : save_all self pre
                 = (repeat true (length pre), set_buffer (buffer self ++ enqueued pre) self, [])).
  { destruct pre as [| p pre'].
    - cbn. now rewrite app_nil_r, set_buffer_same.
    - apply save_all_below, Hpre. done. }
  split; [exact Hrun |].
  rewrite save_all_snoc, Hrun. cbn [fst snd app].
  rewrite save_data_reached.
  - cbn [snd buffer set_buffer]. unfold enqueued.
    rewrite map_app, concat_app. cbn. now rewrite app_nil_r, app_assoc.
  - cbn [buffer buffer_size set_buffer]. unfold enqueued in *.
    rewrite map_app, concat_app in Hc. cbn in Hc.
    rewrite app_nil_r, app_assoc in Hc. exact Hc.
Qed.

Lemma save_data_flush_at_threshold_witness :
  save_data adapter_2 [rec_a] http_200 = (true, adapter_2_holding_a, [])
  ∧ (save_data adapter_2_holding_a [rec_b] http_200).2 = [[rec_a; rec_b]]
  ∧ ∃ pre c post,
      [([rec_a], http_200); ([rec_b], http_500); ([rec_a], http_200)] = pre ++ c :: post
      ∧ save_all adapter_2 pre
        = (repeat true (length pre),
           set_buffer (buffer adapter_2 ++ enqueued pre) adapter_2, [])
      ∧ (save_all adapter_2 (pre ++ [c])).2
        = [buffer adapter_2 ++ enqueued (pre ++ [c])].
Proof.
  destruct save_data_flush_at_threshold as (Hbelow & Hreached & Hrun).
  split; [| split].
  - apply (Hbelow adapter_2 [rec_a] http_200). vm_compute. reflexivity.
  - apply (Hreached adapter_2_holding_a [rec_b] http_200). vm_compute. discriminate.
  - apply (Hrun adapter_2 [([rec_a], http_200); ([rec_b], http_500); ([rec_a], http_200)]).
    + discriminate.
    + vm_compute. discriminate.
Defined.

End Forwarder.

(** ** The subscription registry *)
Section Registry.

Import Store.
Local Open Scope py_scope.

Lemma subscribe_spec (u : Z) (ws : WebSocket) (w : World) :
  subscribe u ws w
  = (Ok tt, set_subscriptions (<[u := channels u w ∪ {[ws]}]> (subscriptions w)) w).
Proof.
  unfold subscribe, modify, channels. f_equal. f_equal.
  destruct (subscriptions w !! u) as [wss |] eqn:Hu.
  - now rewrite Hu.
  - now rewrite lookup_insert_eq, insert_insert_eq.
Qed.

Lemma channels_subscribe_eq (u : Z) (ws : WebSocket) (w : World) :
  channels u (subscribe u ws w).2 = channels u w ∪ {[ws]}.
Proof.
  rewrite subscribe_spec. unfold channels at 1. cbn.
  now rewrite lookup_insert_eq.
Qed.

Lemma channels_subscribe_ne (u u' : Z) (ws : WebSocket) (w : World) :
  u ≠ u' → channels u' (subscribe u ws w).2 = channels u' w.
Proof.
  intros Hne. rewrite subscribe_spec. unfold channels. cbn.
  now rewrite lookup_insert_ne.
Qed.

Lemma subscribe_idempotent (u : Z) (ws : WebSocket) (w : World) :
  subscribe u ws (subscribe u ws w).2 = subscribe u ws w.
Proof.
  rewrite (subscribe_spec u ws (subscribe u ws w).2), channels_subscribe_eq.
  rewrite subscribe_spec. cbn. unfold set_subscriptions. cbn.
  rewrite insert_insert_eq. do 3 f_equal.
  apply set_eq. intros c. rewrite !elem_of_union. tauto.
Qed.

Lemma unsubscribe_spec (u : Z) (ws : WebSocket) (w : World) :
  unsubscribe u ws w
  = if decide (ws ∈ channels u w)
    then (Ok tt, set_subscriptions (<[u := channels u w ∖ {[ws]}]> (subscriptions w)) w)
    else (Raise KeyError, w).
Proof.
  unfold unsubscribe, bind, get, channels.
  destruct (subscriptions w !! u) as [wss |] eqn:Hu; cbn.
  - destruct (decide (ws ∈ wss)); reflexivity.
  - destruct (decide (ws ∈ (∅ : gset WebSocket))) as [Hin | ]; [set_solver | reflexivity].
Qed.

Lemma channels_insert (u : Z) (wss : gset WebSocket)
    (subs : gmap Z (gset WebSocket)) (w : World) :
  channels u (set_subscriptions (<[u := wss]> subs) w) = wss.
Proof. unfold channels. cbn. now rewrite lookup_insert_eq. Qed.

(** A connection that receives texts and then disconnects: the socket
    is added, then removed by the handler, which cannot raise there. *)
Lemma websocket_endpoint_disconnect (u : Z) (ws : WebSocket) (texts : list string)
    (rest : list ws_event) (w : World) :
  websocket_endpoint ws u ((Text <$> texts) ++ Disconnect :: rest) w
  = (Ok tt, set_subscriptions (<[u := channels u w ∖ {[ws]}]> (subscriptions w)) w).
Proof.
  unfold websocket_endpoint. unfold bind at 1. rewrite subscribe_spec.
  induction texts as [| t texts IH]; [| exact IH].
  cbn [fmap list_fmap app websocket_endpoint_loop].
  rewrite unsubscribe_spec, channels_insert.
  destruct (decide (ws ∈ channels u w ∪ {[ws]})) as [_ | Hout].
  - unfold set_subscriptions. cbn. rewrite insert_insert_eq.
    do 3 f_equal. apply set_eq. intros c.
    rewrite !elem_of_difference, elem_of_union. tauto.
  - exfalso. apply Hout, elem_of_union. right. now apply elem_of_singleton.
Qed.

(** Line 114 taken alone: it removes a socket that is registered under the
    user, and its subscript or [set.remove] raises [KeyError] otherwise.
    [websocket_endpoint] only runs it for the socket it has added. *)
Lemma unsubscribe_registered_only (u : Z) (ws : WebSocket) (w : World) :
  (ws ∈ channels u w →
   unsubscribe u ws w
   = (Ok tt, set_subscriptions (<[u := channels u w ∖ {[ws]}]> (subscriptions w)) w))
  ∧ (ws ∉ channels u w → unsubscribe u ws w = (Raise KeyError, w)).
Proof.
  rewrite unsubscribe_spec.
  split; intros H; now destruct (decide (ws ∈ channels u w)).
Qed.


Example second_disconnect_is_ignored :
  websocket_endpoint 1%positive 5 [Text "ping"; Disconnect; Disconnect] world_closed_2
  = websocket_endpoint 1%positive 5 [Text "ping"; Disconnect] world_closed_2.
Proof. reflexivity. Qed.


Lemma for_each_cons {A} (v : A) (l : list A) (body : A → M unit) (w : World) :
  for_each (v :: l) body w
  = match body v w with
    | (Ok _, w1) => for_each l body w1
    | (Raise e, w1) => (Raise e, w1)
    end.
Proof. reflexivity. Qed.

(** One turn of the loop of [send_data_to_subscribers]. *)
Lemma send_one_unfold (data : PyValue) (c : WebSocket) (w : World) :
  (t <- json_dumps data ;; send_json c t) w
  = match data with
    | PyJson text =>
        if decide (c ∈ closed w)
        then (Raise RuntimeError, w)
        else (Ok tt, set_outbox (outbox w ++ [(c, text)]) w)
    | PyCursorResult _ => (Raise TypeError, w)
    end.
Proof.
  destruct data as [text | result]; [| reflexivity].
  unfold bind, json_dumps, ret, send_json, get. cbn.
  now destruct (decide (c ∈ closed w)).
Qed.

(** The loop of [send_data_to_subscribers] over sockets that are all open. *)
Lemma for_each_send_open (text : string) (l : list WebSocket) :
  ∀ w : World,
    (∀ c, c ∈ l → c ∉ closed w) →
    for_each l (λ websocket, t <- json_dumps (PyJson text) ;; send_json websocket t) w
    = (Ok tt, set_outbox (outbox w ++ ((λ c, (c, text)) <$> l)) w).
Proof.
  induction l as [| c l IH]; intros w Hopen.
  - cbn. unfold ret. rewrite app_nil_r. now destruct w.
  - rewrite for_each_cons, send_one_unfold.
    destruct (decide (c ∈ closed w)) as [Hc | _].
    { exfalso. apply (Hopen c); [left | exact Hc]. }
    rewrite IH.
    + cbn [outbox set_outbox fmap list_fmap]. unfold set_outbox. cbn.
      now rewrite <- app_assoc.
    + intros c' Hc'. cbn. apply Hopen. now right.
Qed.

(** The same loop when the first closed socket is [c], met after [l1]. *)
Lemma for_each_send_closed (text : string) (l1 l2 : list WebSocket) (c : WebSocket) :
  ∀ w : World,
    (∀ c', c' ∈ l1 → c' ∉ closed w) →
    c ∈ closed w →
    for_each (l1 ++ c :: l2)
      (λ websocket, t <- json_dumps (PyJson text) ;; send_json websocket t) w
    = (Raise RuntimeError, set_outbox (outbox w ++ ((λ c', (c', text)) <$> l1)) w).
Proof.
  induction l1 as [| c1 l1 IH]; intros w Hopen Hclosed; cbn [app];
    rewrite for_each_cons, send_one_unfold.
  - destruct (decide (c ∈ closed w)) as [_ | Hc]; [| done].
    cbn. rewrite app_nil_r. now destruct w.
  - destruct (decide (c1 ∈ closed w)) as [Hc | _].
    { exfalso. apply (Hopen c1); [left | exact Hc]. }
    rewrite IH.
    + cbn [outbox set_outbox fmap list_fmap]. unfold set_outbox. cbn.
      now rewrite <- app_assoc.
    + intros c' Hc'. cbn. apply Hopen. now right.
    + exact Hclosed.
Qed.

Lemma send_data_to_subscribers_unfold (u : Z) (data : PyValue) (w : World) :
  send_data_to_subscribers u data w
  = let w1 := set_trace (trace w ++ [Notified u data]) w in
    match subscriptions w !! u with
    | Some wss =>
        for_each (elements wss)
          (λ websocket, t <- json_dumps data ;; send_json websocket t) w1
    | None => (Ok tt, w1)
    end.
Proof.
  unfold send_data_to_subscribers, bind, modify, get. cbn.
  now destruct (subscriptions w !! u).
Qed.

Lemma sent_during_app (w w' : World) (extra : list (WebSocket * string)) :
  outbox w' = outbox w ++ extra → sent_during w w' = extra.
Proof. intros H. unfold sent_during. rewrite H. apply drop_app_length. Qed.

(** C9, as stated, fails.  With socket 1 the only subscriber of user 5 and
    closed, the notification raises and socket 1 stays registered; with
    sockets 1 and 2 subscribed and 2 closed, socket 2 coming first in the
    iteration, the notification raises before socket 1, which is open, is
    sent anything, and socket 2 stays registered. *)
Lemma send_data_to_subscribers_not_isolated :
  let r1 := send_data_to_subscribers 5 (PyJson "r") world_closed_1 in
  let r2 := send_data_to_subscribers 5 (PyJson "r") world_closed_2 in
  r1.1 = Raise RuntimeError
  ∧ subscriptions r1.2 = subscriptions world_closed_1
  ∧ (1%positive : WebSocket) ∈ channels 5 r1.2
  ∧ r2.1 = Raise RuntimeError
  ∧ ((1%positive : WebSocket) ∉ closed world_closed_2)
  ∧ deliveries_to 1%positive (sent_during world_closed_2 r2.2) = []
  ∧ (2%positive : WebSocket) ∈ channels 5 r2.2.
Proof.
  cbn zeta. repeat split; try (vm_compute; reflexivity); compute_done.
Qed.

Lemma deliveries_to_none (ws : WebSocket) (log : list (WebSocket * string)) :
  (∀ p, p ∈ log → p.1 ≠ ws) → deliveries_to ws log = [].
Proof.
  induction log as [| p log IH]; intros Hne; [reflexivity |].
  unfold deliveries_to in *. rewrite filter_cons.
  destruct (decide (p.1 = ws)) as [Heq | _].
  - exfalso. apply (Hne p); [left | exact Heq].
  - apply IH. intros q Hq. apply Hne. now right.
Qed.

Lemma deliveries_to_each (ws : WebSocket) (text : string) (l : list WebSocket) :
  NoDup l →
  deliveries_to ws (((λ c, (c, text)) <$> l)) = if decide (ws ∈ l) then [text] else [].
Proof.
  induction 1 as [| c l Hc Hnd IH].
  - cbn. destruct (decide (ws ∈ [])) as [Hin | ]; [inversion Hin | reflexivity].
  - unfold deliveries_to in *. cbn [fmap list_fmap]. rewrite filter_cons. cbn [fst].
    destruct (decide (c = ws)) as [-> | Hne].
    + cbn [fmap list_fmap snd]. fold (deliveries_to ws (((λ c, (c, text)) <$> l))).
      rewrite deliveries_to_none.
      * destruct (decide (ws ∈ ws :: l)) as [_ | Hout]; [reflexivity |].
        exfalso. apply Hout. left.
      * intros p Hp. apply list_elem_of_fmap in Hp as (c' & -> & Hc'). cbn.
        intros ->. contradiction.
    + rewrite IH. destruct (decide (ws ∈ l)) as [Hin | Hout].
      * destruct (decide (ws ∈ c :: l)) as [_ | Hout']; [reflexivity |].
        exfalso. apply Hout'. now right.
      * destruct (decide (ws ∈ c :: l)) as [Hin' | _]; [| reflexivity].
        exfalso. apply elem_of_cons in Hin' as [-> | Hin']; contradiction.
Qed.

(** Whatever the data and whichever sockets are closed, the loop sends only
    to sockets it iterates over. *)
Lemma for_each_send_targets (data : PyValue) (l : list WebSocket) :
  ∀ w : World,
    ∃ extra,
      outbox (for_each l (λ websocket, t <- json_dumps data ;; send_json websocket t) w).2
      = outbox w ++ extra
      ∧ ∀ p, p ∈ extra → p.1 ∈ l.
Proof.
  induction l as [| c l IH]; intros w.
  - exists []. cbn. rewrite app_nil_r. split; [reflexivity | intros p Hp; inversion Hp].
  - rewrite for_each_cons, send_one_unfold.
    destruct data as [text | result].
    + destruct (decide (c ∈ closed w)) as [Hc | Hc].
      * exists []. cbn. rewrite app_nil_r. split; [reflexivity | intros p Hp; inversion Hp].
      * destruct (IH (set_outbox (outbox w ++ [(c, text)]) w)) as (extra & Hout & Hin).
        exists ((c, text) :: extra). rewrite Hout. cbn [outbox set_outbox].
        rewrite <- app_assoc. split; [reflexivity |].
        intros p Hp. apply elem_of_cons in Hp as [-> | Hp]; [left | right; auto].
    + exists []. cbn. rewrite app_nil_r. split; [reflexivity | intros p Hp; inversion Hp].
Qed.

Lemma send_data_to_subscribers_targets (u : Z) (data : PyValue) (w : World)
    (ws : WebSocket) :
  ws ∉ channels u w →
  deliveries_to ws (sent_during w (send_data_to_subscribers u data w).2) = [].
Proof.
  intros Hout. rewrite send_data_to_subscribers_unfold. cbn zeta.
  unfold channels in Hout.
  destruct (subscriptions w !! u) as [wss |] eqn:Hu; cbn in Hout.
  - destruct (for_each_send_targets data (elements wss)
                (set_trace (trace w ++ [Notified u data]) w)) as (extra & Hbox & Hin).
    rewrite (sent_during_app _ _ extra) by exact Hbox.
    apply deliveries_to_none. intros p Hp Heq. apply Hout.
    apply elem_of_elements. rewrite <- Heq. now apply Hin.
  - cbn [snd]. rewrite (sent_during_app _ _ []) by (cbn; now rewrite app_nil_r).
    reflexivity.
Qed.

(** C9, amended.  For data that [json.dumps] accepts, a send that fails is
    not isolated: the exception leaves [send_data_to_subscribers]; each
    socket iterated before the failing one has been sent the record once,
    the failing one and those after it have been sent nothing; the registry
    is unchanged, so the failing socket stays registered. *)
Theorem send_data_to_subscribers_failed_send (u : Z) (text : string) (w : World)
    (wss : gset WebSocket) (l1 l2 : list WebSocket) (c : WebSocket) :
  subscriptions w !! u = Some wss →
  elements wss = l1 ++ c :: l2 →
  (∀ c', c' ∈ l1 → c' ∉ closed w) →
  c ∈ closed w →
  let r := send_data_to_subscribers u (PyJson text) w in
  r.1 = Raise RuntimeError
  ∧ sent_during w r.2 = ((λ c', (c', text)) <$> l1)
  ∧ (∀ c', c' ∈ l1 → deliveries_to c' (sent_during w r.2) = [text])
  ∧ (∀ c', c' ∈ c :: l2 → deliveries_to c' (sent_during w r.2) = [])
  ∧ subscriptions r.2 = subscriptions w
  ∧ c ∈ channels u r.2.
Proof.
  intros Hu Hl Hopen Hclosed r. subst r.
  rewrite send_data_to_subscribers_unfold. cbn zeta. rewrite Hu, Hl.
  rewrite for_each_send_closed by (cbn; auto).
  cbn [fst snd].
  assert (Hsent : sent_during w
                    (set_outbox (outbox (set_trace (trace w ++ [Notified u (PyJson text)]) w)
                                 ++ ((λ c', (c', text)) <$> l1))
                       (set_trace (trace w ++ [Notified u (PyJson text)]) w))
                  = (λ c', (c', text)) <$> l1)
    by now apply sent_during_app.
  pose proof (NoDup_elements wss) as Hnd. rewrite Hl in Hnd.
  apply NoDup_app in Hnd as (Hnd1 & Hdisj & _).
  rewrite Hsent.
  split; [reflexivity |]. split; [reflexivity |]. split; [| split; [| split]].
  - intros c' Hc'. rewrite deliveries_to_each by exact Hnd1.
    now destruct (decide (c' ∈ l1)).
  - intros c' Hc'. rewrite deliveries_to_each by exact Hnd1.
    destruct (decide (c' ∈ l1)) as [Hin | _]; [| reflexivity].
    exfalso. exact (Hdisj c' Hin Hc').
  - reflexivity.
  - unfold channels. cbn. rewrite Hu. cbn.
    apply elem_of_elements. rewrite Hl. apply elem_of_app. right. left.
Qed.

Lemma send_data_to_subscribers_failed_send_witness :
  let r := send_data_to_subscribers 5 (PyJson "r") world_closed_1_of_2 in
  r.1 = Raise RuntimeError
  ∧ sent_during world_closed_1_of_2 r.2 = [(2%positive, "r"%string)]
  ∧ deliveries_to 2%positive (sent_during world_closed_1_of_2 r.2) = ["r"%string]
  ∧ deliveries_to 1%positive (sent_during world_closed_1_of_2 r.2) = []
  ∧ subscriptions r.2 = subscriptions world_closed_1_of_2
  ∧ (1%positive : WebSocket) ∈ channels 5 r.2.
Proof.
  intros r.
  destruct (send_data_to_subscribers_failed_send 5 "r" world_closed_1_of_2
              {[ 1%positive; 2%positive ]} [2%positive] [] 1%positive)
    as (Hraise & Hsent & Hbefore & Hafter & Hsubs & Hin).
  - reflexivity.
  - vm_compute. reflexivity.
  - intros c' Hc'. apply list_elem_of_singleton in Hc'. subst c'. compute_done.
  - compute_done.
  - split; [exact Hraise |]. split; [exact Hsent |].
    split; [apply Hbefore; left |]. split; [apply Hafter; left |].
    split; [exact Hsubs | exact Hin].
Defined.

Example notify_after_subscribe :
  let w1 := (subscribe 5 1%positive world0).2 in
  send_data_to_subscribers 5 (PyJson "r") w1
  = (Ok tt, set_outbox [(1%positive, "r"%string)]
              (set_trace [Notified 5 (PyJson "r")] w1)).
Proof. reflexivity. Qed.

(** C5, as stated, fails.  Socket 7 subscribes to user 1 and stays open.
    The ingestion of a record of user 1 notifies with the [CursorResult] of
    the insert: [json.dumps] raises [TypeError] and socket 7 is sent
    nothing, from the endpoint as from the notifier called alone.  And
    socket 1, open, subscribed to user 5 next to socket 2, which is closed
    and iterated first, is sent nothing either, for data that can be
    dumped. *)
Lemma subscribe_then_notify_may_not_deliver :
  let w1 := (subscribe 1 7%positive world0).2 in
  let r1 := create_processed_agent_data (λ _, NoFault) [Hub.rec_a] w1 in
  let r2 := send_data_to_subscribers 1
              (PyCursorResult {| rowcount := 1; inserted_primary_key := Some 1 |}) w1 in
  let w3 := (subscribe 5 1%positive world_closed_2).2 in
  let r3 := send_data_to_subscribers 5 (PyJson "r") w3 in
  user_id (agent_data Hub.rec_a) = 1
  ∧ (7%positive : WebSocket) ∈ channels 1 w1
  ∧ r1.1 = Raise TypeError
  ∧ deliveries_to 7%positive (sent_during w1 r1.2) = []
  ∧ r2.1 = Raise TypeError
  ∧ deliveries_to 7%positive (sent_during w1 r2.2) = []
  ∧ (1%positive : WebSocket) ∈ channels 5 w3
  ∧ r3.1 = Raise RuntimeError
  ∧ deliveries_to 1%positive (sent_during w3 r3.2) = [].
Proof.
  cbn zeta. repeat split; try (vm_compute; reflexivity); compute_done.
Qed.

(** C5, amended.  After [subscribe u ws], for data that [json.dumps]
    accepts and while no socket registered under [u] is closed, a
    notification for [u] sends the record exactly once to [ws] and to every
    socket registered under [u], those registered before the subscription
    included, and to no other socket; a notification for another user,
    under whom [ws] is not registered, sends nothing to [ws]; subscribing
    the same socket again changes nothing, so [ws] is still sent the record
    once. *)
Theorem subscribe_then_notify (u : Z) (ws : WebSocket) (data : PyValue)
    (text : string) (w : World) :
  let w1 := (subscribe u ws w).2 in
  json_dumps data = ret text →
  (∀ c, c ∈ channels u w1 → c ∉ closed w1) →
  let r := send_data_to_subscribers u data w1 in
  r.1 = Ok tt
  ∧ channels u w1 = channels u w ∪ {[ws]}
  ∧ ws ∈ channels u w1
  ∧ (∀ c, c ∈ channels u w1 → deliveries_to c (sent_during w1 r.2) = [text])
  ∧ (∀ c, c ∉ channels u w1 → deliveries_to c (sent_during w1 r.2) = [])
  ∧ (∀ u' data', u' ≠ u → ws ∉ channels u' w →
       deliveries_to ws (sent_during w1 (send_data_to_subscribers u' data' w1).2) = [])
  ∧ subscribe u ws w1 = (Ok tt, w1)
  ∧ (let w2 := (subscribe u ws w1).2 in
     deliveries_to ws (sent_during w2 (send_data_to_subscribers u data w2).2) = [text]).
Proof.
  intros w1 Hdumps Hopen r.
  assert (Hdata : data = PyJson text).
  { pose proof (f_equal (λ m : M string, (m w).1) Hdumps) as H.
    destruct data as [t | result]; cbn in H; [| discriminate H].
    now injection H as ->. }
  subst data.
  assert (Hchannels : channels u w1 = channels u w ∪ {[ws]}).
  { subst w1. apply channels_subscribe_eq. }
  assert (Hws : ws ∈ channels u w1).
  { rewrite Hchannels. apply elem_of_union. right. now apply elem_of_singleton. }
  assert (Hu : subscriptions w1 !! u = Some (channels u w1)).
  { subst w1. rewrite channels_subscribe_eq, subscribe_spec. cbn.
    now rewrite lookup_insert_eq. }
  assert (Hr : r = (Ok tt,
                    set_outbox (outbox w1 ++ ((λ c, (c, text)) <$> elements (channels u w1)))
                      (set_trace (trace w1 ++ [Notified u (PyJson text)]) w1))).
  { subst r. rewrite send_data_to_subscribers_unfold. cbn zeta. rewrite Hu.
    rewrite for_each_send_open; [reflexivity |].
    intros c Hc. cbn. apply Hopen. now apply elem_of_elements. }
  assert (Hsent : sent_during w1 r.2 = (λ c, (c, text)) <$> elements (channels u w1)).
  { rewrite Hr. now apply sent_during_app. }
  assert (Hidem : subscribe u ws w1 = (Ok tt, w1)).
  { subst w1. rewrite subscribe_idempotent. now rewrite subscribe_spec. }
  assert (Hall : ∀ c, c ∈ channels u w1 → deliveries_to c (sent_during w1 r.2) = [text]).
  { intros c Hc. rewrite Hsent, deliveries_to_each by apply NoDup_elements.
    destruct (decide (c ∈ elements (channels u w1))) as [_ | Hout]; [reflexivity |].
    exfalso. apply Hout. now apply elem_of_elements. }
  split; [now rewrite Hr |]. split; [exact Hchannels |]. split; [exact Hws |].
  split; [exact Hall |]. split; [| split; [| split]].
  - intros c Hc. rewrite Hsent, deliveries_to_each by apply NoDup_elements.
    destruct (decide (c ∈ elements (channels u w1))) as [Hin | _]; [| reflexivity].
    exfalso. apply Hc. now apply elem_of_elements.
  - intros u' data' Hne Hout. apply send_data_to_subscribers_targets.
    subst w1. now rewrite channels_subscribe_ne.
  - exact Hidem.
  - rewrite Hidem. cbn [snd]. now apply Hall.
Qed.

Lemma subscribe_then_notify_witness :
  let w1 := (subscribe 5 1%positive world_open_2).2 in
  let r := send_data_to_subscribers 5 (PyJson "r") w1 in
  r.1 = Ok tt
  ∧ deliveries_to 1%positive (sent_during w1 r.2) = ["r"%string]
  ∧ deliveries_to 2%positive (sent_during w1 r.2) = ["r"%string]
  ∧ deliveries_to 1%positive
      (sent_during w1 (send_data_to_subscribers 6 (PyJson "r") w1).2) = []
  ∧ subscribe 5 1%positive w1 = (Ok tt, w1).
Proof.
  intros w1 r.
  assert (Hopen : ∀ c, c ∈ channels 5 w1 → c ∉ closed w1).
  { intros c _. change (c ∉ (∅ : gset WebSocket)). apply not_elem_of_empty. }
  destruct (subscribe_then_notify 5 1%positive (PyJson "r") "r" world_open_2 eq_refl Hopen)
    as (Hok & Hch & Hin & Hall & _ & Hother & Hidem & _).
  split; [exact Hok |]. split; [exact (Hall 1%positive Hin) |].
  split; [apply Hall; compute_done |].
  split; [| exact Hidem].
  apply (Hother 6 (PyJson "r")); [discriminate |].
  compute_done.
Defined.

End Registry.

(** ** The ingestion endpoint *)
Section Ingestion.

Import Store.
Local Open Scope py_scope.

(** The sends of a notification change the outbox only. *)
Lemma for_each_send_frame (data : PyValue) (l : list WebSocket) :
  ∀ w : World,
    ∃ o, (for_each l (λ websocket, t <- json_dumps data ;; send_json websocket t) w).2
         = set_outbox o w.
Proof.
  induction l as [| c l IH]; intros w.
  - exists (outbox w). now destruct w.
  - rewrite for_each_cons, send_one_unfold.
    destruct data as [text | result].
    + destruct (decide (c ∈ closed w)).
      * exists (outbox w). now destruct w.
      * destruct (IH (set_outbox (outbox w ++ [(c, text)]) w)) as (o & Ho).
        exists o. now rewrite Ho.
    + exists (outbox w). now destruct w.
Qed.

Lemma send_data_to_subscribers_frame (u : Z) (data : PyValue) (w : World) :
  ∃ o, (send_data_to_subscribers u data w).2
       = set_outbox o (set_trace (trace w ++ [Notified u data]) w).
Proof.
  rewrite send_data_to_subscribers_unfold. cbn zeta.
  destruct (subscriptions w !! u) as [wss |].
  - apply for_each_send_frame.
  - exists (outbox w). now destruct w.
Qed.

Lemma persist_and_notify_unfold (fault : db_fault) (item : ProcessedAgentData) (w : World) :
  persist_and_notify fault item w
  = let rows1 := session w ++ [insert_values item (next_id w)] in
    match fault with
    | ExecuteRaises => (Raise SQLAlchemyError, w)
    | CommitRaises =>
        (Raise SQLAlchemyError,
         mkWorld (table w) rows1 (next_id w + 1) (subscriptions w) (closed w)
           (outbox w) (trace w))
    | NoFault =>
        send_data_to_subscribers (user_id (agent_data item))
          (PyCursorResult {| rowcount := 1; inserted_primary_key := Some (next_id w) |})
          (mkWorld rows1 rows1 (next_id w + 1) (subscriptions w) (closed w)
             (outbox w) (trace w ++ [Committed rows1]))
    end.
Proof. destruct fault; reflexivity. Qed.

Lemma create_loop_cons (faults : nat → db_fault) (k : nat) (item : ProcessedAgentData)
    (rest : list ProcessedAgentData) (w : World) :
  create_loop faults k (item :: rest) w
  = match persist_and_notify (faults k) item w with
    | (Ok _, w1) => create_loop faults (S k) rest w1
    | (Raise e, w1) => (Raise e, set_session (table w1) w1)
    end.
Proof.
  cbn [create_loop]. unfold bind at 1. unfold try_except.
  destruct (persist_and_notify (faults k) item w) as [[[] | e] w1]; reflexivity.
Qed.

Lemma persist_and_notify_spec (fault : db_fault) (item : ProcessedAgentData) (w : World) :
  session w = table w →
  let r := persist_and_notify fault item w in
  let rows1 := table w ++ [insert_values item (next_id w)] in
  subscriptions r.2 = subscriptions w ∧ closed r.2 = closed w
  ∧ match fault with
    | NoFault =>
        table r.2 = rows1 ∧ session r.2 = rows1
        ∧ next_id r.2 = next_id w + 1
        ∧ trace r.2
          = trace w ++ [Committed rows1;
                        Notified (user_id (agent_data item))
                          (PyCursorResult {| rowcount := 1;
                                            inserted_primary_key := Some (next_id w) |})]
    | _ => r.1 = Raise SQLAlchemyError ∧ table r.2 = table w ∧ trace r.2 = trace w
    end.
Proof.
  intros Hs r rows1. subst r rows1. rewrite persist_and_notify_unfold. cbn zeta.
  destruct fault; try (cbn; tauto).
  match goal with
  | |- context [send_data_to_subscribers ?u ?d ?w1] =>
      destruct (send_data_to_subscribers_frame u d w1) as (o & ->)
  end.
  cbn. rewrite Hs, <- app_assoc. tauto.
Qed.

Lemma ingest_rows_length (items : list ProcessedAgentData) :
  ∀ id, length (ingest_rows id items) = length items.
Proof. induction items as [| item rest IH]; intros id; cbn; [| rewrite IH]; reflexivity. Qed.

(** What a run of the loop leaves: for some [n], the first [n] records were
    committed and notified, in that order and one after the other. *)
Lemma create_loop_spec (faults : nat → db_fault) (data : list ProcessedAgentData) :
  ∀ (k : nat) (w : World),
    session w = table w →
    let r := create_loop faults k data w in
    ∃ n : nat,
      (n ≤ length data)%nat
      ∧ table r.2 = table w ++ ingest_rows (next_id w) (take n data)
      ∧ session r.2 = table r.2
      ∧ trace r.2 = trace w ++ ingest_trace (table w) (next_id w) (take n data)
      ∧ (∀ j, (j < n)%nat → faults (k + j)%nat = NoFault)
      ∧ (r.1 = Ok tt → n = length data).
Proof.
  induction data as [| item rest IH]; intros k w Hs r; subst r.
  - exists 0%nat. cbn. rewrite !app_nil_r. repeat split; auto. intros j Hj. lia.
  - rewrite create_loop_cons.
    pose proof (persist_and_notify_spec (faults k) item w Hs) as Hstep.
    cbn zeta in Hstep.
    destruct (persist_and_notify (faults k) item w) as [[[] | e] w1] eqn:Hp;
      cbn [fst snd] in Hstep.
    + destruct (faults k) eqn:Hf;
        [| destruct Hstep as (_ & _ & Hno & _); discriminate Hno ..].
      destruct Hstep as (_ & _ & Ht & Hse & Hid & Htr).
      destruct (IH (S k) w1) as (n & Hn & Ht' & Hs' & Htr' & Hfaults & Hok);
        [congruence |].
      exists (S n). cbn [length take ingest_rows ingest_trace].
      split; [lia |].
      split; [rewrite Ht', Ht, Hid, <- app_assoc; reflexivity |].
      split; [exact Hs' |].
      split; [rewrite Htr', Htr, Ht, Hid, <- app_assoc; reflexivity |].
      split.
      * intros [| j] Hj; [now rewrite Nat.add_0_r |].
        rewrite Nat.add_succ_r. apply (Hfaults j). lia.
      * intros H. f_equal. auto.
    + destruct (faults k) eqn:Hf.
      * destruct Hstep as (_ & _ & Ht & Hse & Hid & Htr).
        exists 1%nat. cbn [length take ingest_rows ingest_trace fst snd set_session table
                            session trace].
        split; [lia |]. split; [now rewrite Ht |]. split; [reflexivity |].
        split; [now rewrite Htr |]. split; [| discriminate].
        intros j Hj. assert (j = 0%nat) as -> by lia. now rewrite Nat.add_0_r.
      * destruct Hstep as (_ & _ & _ & Ht & Htr).
        exists 0%nat. cbn. rewrite Ht, Htr, !app_nil_r.
        split; [lia |]. do 3 (split; [reflexivity |]).
        split; [intros j Hj; lia | discriminate].
      * destruct Hstep as (_ & _ & _ & Ht & Htr).
        exists 0%nat. cbn. rewrite Ht, Htr, !app_nil_r.
        split; [lia |]. do 3 (split; [reflexivity |]).
        split; [intros j Hj; lia | discriminate].
Qed.

Lemma create_processed_agent_data_unfold (faults : nat → db_fault)
    (data : list ProcessedAgentData) (w : World) :
  create_processed_agent_data faults data w
  = create_loop faults 0 data (set_session (table w) w).
Proof. reflexivity. Qed.

Lemma create_loop_app (faults : nat → db_fault) (l1 l2 : list ProcessedAgentData) :
  ∀ (k : nat) (w : World),
    create_loop faults k (l1 ++ l2) w
    = match create_loop faults k l1 w with
      | (Ok _, w1) => create_loop faults (k + length l1) l2 w1
      | (Raise e, w1) => (Raise e, w1)
      end.
Proof.
  induction l1 as [| item l1 IH]; intros k w.
  - cbn. now rewrite Nat.add_0_r.
  - cbn [app length]. rewrite !create_loop_cons.
    destruct (persist_and_notify (faults k) item w) as [[[] | e] w1]; [| reflexivity].
    rewrite IH. now rewrite Nat.add_succ_r.
Qed.

(** A notification in the trace of an ingestion comes right after the
    commit of the row it announces. *)
Lemma ingest_trace_notified (items : list ProcessedAgentData) :
  ∀ (rows : list InDB.row) (id : Z) (pre post : list event) (u : Z) (d : PyValue),
    ingest_trace rows id items = pre ++ Notified u d :: post →
    ∃ pre' rows' row,
      pre = pre' ++ [Committed rows']
      ∧ row ∈ rows'
      ∧ InDB.user_id row = u
      ∧ d = PyCursorResult {| rowcount := 1; inserted_primary_key := Some (InDB.id row) |}.
Proof.
  induction items as [| item rest IH]; intros rows id pre post u d Heq.
  - destruct pre; discriminate Heq.
  - cbn [ingest_trace] in Heq.
    destruct pre as [| e1 [| e2 pre2]]; cbn [app] in Heq.
    + discriminate Heq.
    + injection Heq as He1 Hu Hd _. subst e1 u d.
      exists [], (rows ++ [insert_values item id]), (insert_values item id).
      split; [reflexivity |]. split; [| split; reflexivity].
      apply elem_of_app. right. left.
    + injection Heq as He1 He2 Hrest. subst e1 e2.
      destruct (IH _ _ _ _ _ _ Hrest) as (pre' & rows' & row & -> & Hin & Hu & Hd).
      exists (Committed (rows ++ [insert_values item id])
              :: Notified (user_id (agent_data item))
                   (PyCursorResult {| rowcount := 1; inserted_primary_key := Some id |})
              :: pre'), rows', row.
      auto.
Qed.

Example create_commit_fault_at_1 :
  let faults := λ k, if (k =? 1)%nat then CommitRaises else NoFault in
  let r := create_processed_agent_data faults [Hub.rec_a; Hub.rec_b] world0 in
  r.1 = Raise SQLAlchemyError
  ∧ table r.2 = [insert_values Hub.rec_a 1]
  ∧ trace r.2
    = [Committed [insert_values Hub.rec_a 1];
       Notified 1 (PyCursorResult {| rowcount := 1; inserted_primary_key := Some 1 |})].
Proof. repeat split. Qed.

(** C6.  In every call of [create_processed_agent_data], whatever the
    database and the sockets do, the commits and notifications made are
    those of the first [n] records, for some [n]: each record is notified
    right after the commit that put its row in the table, the notified
    records are all in the table afterwards, and no record at which the
    database raised is notified. *)
Theorem create_notifies_after_commit (faults : nat → db_fault)
    (data : list ProcessedAgentData) (w : World) :
  let r := create_processed_agent_data faults data w in
  ∃ n : nat,
    (n ≤ length data)%nat
    ∧ trace r.2 = trace w ++ ingest_trace (table w) (next_id w) (take n data)
    ∧ table r.2 = table w ++ ingest_rows (next_id w) (take n data)
    ∧ (∀ k, faults k ≠ NoFault → (n ≤ k)%nat)
    ∧ (∀ pre post u d,
         ingest_trace (table w) (next_id w) (take n data) = pre ++ Notified u d :: post →
         ∃ pre' rows row,
           pre = pre' ++ [Committed rows]
           ∧ row ∈ rows
           ∧ InDB.user_id row = u
           ∧ d = PyCursorResult {| rowcount := 1;
                                   inserted_primary_key := Some (InDB.id row) |}).
Proof.
  intros r. subst r. rewrite create_processed_agent_data_unfold.
  destruct (create_loop_spec faults data 0 (set_session (table w) w))
    as (n & Hn & Ht & _ & Htr & Hfaults & _); [reflexivity |].
  exists n. cbn [table next_id trace set_session] in *.
  split; [exact Hn |]. split; [exact Htr |]. split; [exact Ht |]. split.
  - intros k Hk. destruct (Nat.le_gt_cases n k) as [Hle | Hlt]; [exact Hle |].
    exfalso. apply Hk. exact (Hfaults k Hlt).
  - intros pre post u d. apply ingest_trace_notified.
Qed.

Lemma create_notifies_after_commit_witness :
  let faults := λ k, if (k =? 1)%nat then CommitRaises else NoFault in
  let r := create_processed_agent_data faults [Hub.rec_a; Hub.rec_b] world0 in
  ∃ n : nat,
    (n ≤ 1)%nat
    ∧ trace r.2 = ingest_trace [] 1 (take n [Hub.rec_a; Hub.rec_b])
    ∧ table r.2 = ingest_rows 1 (take n [Hub.rec_a; Hub.rec_b]).
Proof.
  intros faults r.
  destruct (create_notifies_after_commit faults [Hub.rec_a; Hub.rec_b] world0)
    as (n & _ & Htr & Ht & Hfaults & _).
  exists n. split; [| split; [exact Htr | exact Ht]].
  apply Hfaults. discriminate.
Defined.

Lemma create_loop_abort (faults : nat → db_fault) (l1 l2 : list ProcessedAgentData)
    (item : ProcessedAgentData) (w : World) :
  session w = table w →
  faults (length l1) ≠ NoFault →
  (create_loop faults 0 l1 w).1 = Ok tt →
  let r := create_loop faults 0 (l1 ++ item :: l2) w in
  r.1 = Raise SQLAlchemyError
  ∧ table r.2 = table w ++ ingest_rows (next_id w) l1.
Proof.
  intros Hs Hfault Hok r. subst r.
  destruct (create_loop_spec faults l1 0 w Hs) as (n & _ & Ht & Hs1 & _ & _ & Hn).
  cbn zeta in *. specialize (Hn Hok). subst n. rewrite firstn_all in Ht.
  rewrite create_loop_app.
  destruct (create_loop faults 0 l1 w) as [[[] | e] w1]; [| discriminate Hok].
  cbn [fst snd] in *. rewrite Nat.add_0_l, create_loop_cons.
  pose proof (persist_and_notify_spec (faults (length l1)) item w1 Hs1) as Hstep.
  cbn zeta in Hstep.
  destruct (faults (length l1)); [done | |];
    destruct Hstep as (_ & _ & Hr & Ht1 & _);
    destruct (persist_and_notify _ item w1) as [[[] | e] w2];
    cbn [fst snd] in *; try discriminate Hr;
    injection Hr as ->; cbn [fst snd table set_session]; now rewrite Ht1.
Qed.

(** C2.  If the database raises at record [k] (counted from 0) of a call,
    the records before it having been ingested without error, the call
    raises that error, and the table holds the rows of the records before
    [k] in addition to the rows it held: exactly [k] rows more, none for
    record [k]. *)
Theorem create_aborts_at_storage_error (faults : nat → db_fault)
    (data : list ProcessedAgentData) (k : nat) (item : ProcessedAgentData) (w : World) :
  data !! k = Some item →
  faults k ≠ NoFault →
  (create_processed_agent_data faults (take k data) w).1 = Ok tt →
  let r := create_processed_agent_data faults data w in
  r.1 = Raise SQLAlchemyError
  ∧ table r.2 = table w ++ ingest_rows (next_id w) (take k data)
  ∧ length (table r.2) = (length (table w) + k)%nat.
Proof.
  intros Hk Hfault Hok r. subst r.
  rewrite create_processed_agent_data_unfold in *.
  pose proof (lookup_lt_Some _ _ _ Hk) as Hlt.
  assert (Hlen : length (take k data) = k) by (rewrite length_take; lia).
  destruct (create_loop_abort faults (take k data) (drop (S k) data) item
              (set_session (table w) w)) as [Hr Ht];
    [reflexivity | now rewrite Hlen | exact Hok |].
  rewrite (take_drop_middle data k item Hk) in Hr, Ht.
  cbn [table next_id set_session] in Ht.
  split; [exact Hr |]. split; [exact Ht |].
  rewrite Ht, length_app, ingest_rows_length. now rewrite Hlen.
Qed.

Lemma create_aborts_at_storage_error_witness :
  let faults := λ k, if (k =? 1)%nat then ExecuteRaises else NoFault in
  let r := create_processed_agent_data faults [Hub.rec_a; Hub.rec_b] world0 in
  r.1 = Raise SQLAlchemyError
  ∧ table r.2 = table world0 ++ ingest_rows (next_id world0) (take 1 [Hub.rec_a; Hub.rec_b])
  ∧ length (table r.2) = (length (table world0) + 1)%nat.
Proof.
  intros faults.
  apply (create_aborts_at_storage_error faults [Hub.rec_a; Hub.rec_b] 1 Hub.rec_b world0).
  - reflexivity.
  - discriminate.
  - reflexivity.
Defined.

End Ingestion.

(** ** The endpoints keyed by identifier *)
Section Crud.

Import Store.
Local Open Scope py_scope.

Lemma has_id_true (id : Z) (r : InDB.row) : has_id id r = true ↔ InDB.id r = id.
Proof. unfold has_id. apply Z.eqb_eq. Qed.

Lemma find_has_id_app (id : Z) (rows rows' : list InDB.row) :
  find (has_id id) (rows ++ rows')
  = match find (has_id id) rows with
    | Some r => Some r
    | None => find (has_id id) rows'
    end.
Proof.
  induction rows as [| r rows IH]; [reflexivity |].
  cbn [app find]. now destruct (has_id id r).
Qed.

Lemma find_has_id_delete (id : Z) (rows : list InDB.row) :
  find (has_id id) (filter (λ r, has_id id r = false) rows) = None.
Proof.
  induction rows as [| r rows IH]; [reflexivity |].
  rewrite filter_cons. destruct (decide (has_id id r = false)) as [Hr | Hr].
  - cbn [find]. now rewrite Hr.
  - exact IH.
Qed.

Lemma find_has_id_new_versions (id : Z) (data : ProcessedAgentData)
    (rows : list InDB.row) :
  find (has_id id)
    (map (λ r, insert_values data (InDB.id r)) (filter (λ r, has_id id r = true) rows))
  = (λ _, insert_values data id) <$> find (has_id id) rows.
Proof.
  induction rows as [| r rows IH]; [reflexivity |].
  rewrite filter_cons. cbn [find].
  destruct (decide (has_id id r = true)) as [Hr | Hr].
  - rewrite Hr. cbn [map find]. unfold has_id at 1. cbn [InDB.id insert_values].
    fold (has_id id r). rewrite Hr. cbn. apply has_id_true in Hr. now rewrite Hr.
  - apply not_true_is_false in Hr. now rewrite Hr.
Qed.

Lemma find_has_id_update (id : Z) (data : ProcessedAgentData) (rows : list InDB.row) :
  find (has_id id) (updated_rows id data rows)
  = (λ _, insert_values data id) <$> find (has_id id) rows.
Proof.
  unfold updated_rows.
  now rewrite find_has_id_app, find_has_id_delete, find_has_id_new_versions.
Qed.

(** [read] answers 404 exactly when no row has the identifier. *)
Lemma read_processed_agent_data_spec (id : Z) (w : World) :
  (read_processed_agent_data id w).1
  = match find (has_id id) (table w) with
    | Some r => Ok r
    | None => Raise (HTTPException 404 "Data not found")
    end.
Proof.
  unfold read_processed_agent_data, bind, SessionLocal, execute_select_first,
    modify, get, ret. cbn.
  now destruct (find (has_id id) (table w)).
Qed.

(** [update] never answers 404: it returns the updated row, or [None] when
    no row has the identifier. *)
Lemma update_processed_agent_data_spec (id : Z) (data : ProcessedAgentData) (w : World) :
  (update_processed_agent_data id data w).1
  = Ok ((λ _, insert_values data id) <$> find (has_id id) (table w)).
Proof.
  unfold update_processed_agent_data, SessionLocal, execute_update,
    execute_select_first, commit, modify, get, ret, bind.
  cbn -[updated_rows]. now rewrite find_has_id_update.
Qed.

(** [delete] never answers 404: it returns the row as it was before the
    deletion, or [None] when no row has the identifier; afterwards no row
    has the identifier. *)
Lemma delete_processed_agent_data_spec (id : Z) (w : World) :
  (delete_processed_agent_data id w).1 = Ok (find (has_id id) (table w))
  ∧ find (has_id id) (table (delete_processed_agent_data id w).2) = None.
Proof.
  unfold delete_processed_agent_data, bind, SessionLocal, execute_delete,
    execute_select_first, commit, modify, get, ret. cbn.
  split; [reflexivity | apply find_has_id_delete].
Qed.

Example update_present :
  let w1 := (create_processed_agent_data (λ _, NoFault) [Hub.rec_a] world0).2 in
  (update_processed_agent_data 1 Hub.rec_b w1).1 = Ok (Some (insert_values Hub.rec_b 1))
  ∧ (delete_processed_agent_data 1 w1).1 = Ok (Some (insert_values Hub.rec_a 1))
  ∧ (read_processed_agent_data 1 w1).1 = Ok (insert_values Hub.rec_a 1).
Proof. repeat split. Qed.

(** After an update the listing returns the new version of the row after
    the rows that were not touched. *)
Example update_then_list :
  let w1 := (create_processed_agent_data (λ _, NoFault) [Hub.rec_a; Hub.rec_b] world0).2 in
  (list_processed_agent_data (update_processed_agent_data 1 Hub.rec_b w1).2).1
  = Ok [insert_values Hub.rec_b 2; insert_values Hub.rec_b 1].
Proof. reflexivity. Qed.

(** C7 on the code.  With no row of identifier 1 in the table, [read]
    raises the 404 but [update] and [delete] return [None] instead of
    raising it: their test [if not result] is on a [CursorResult], which is
    always true. *)
Theorem update_delete_absent_return_none :
  (read_processed_agent_data 1 world0).1 = Raise (HTTPException 404 "Data not found")
  ∧ (update_processed_agent_data 1 Hub.rec_a world0).1 = Ok None
  ∧ (delete_processed_agent_data 1 world0).1 = Ok None.
Proof. repeat split. Qed.

End Crud.

(** * Further properties of the code *)

(** ** Runs of the forwarder *)
Section ForwarderRuns.

Import Hub.

Lemma save_data_cases (self : StoreApiAdapter) (batch : list ProcessedAgentData)
    (net : post_outcome) :
  (Z.of_nat (length (buffer self ++ batch)) < buffer_size self
   ∧ save_data self batch net = (true, set_buffer (buffer self ++ batch) self, []))
  ∨ (buffer_size self ≤ Z.of_nat (length (buffer self ++ batch))
     ∧ save_data self batch net
       = (send_data self (buffer self ++ batch) net, set_buffer [] self,
          [buffer self ++ batch])).
Proof.
  destruct (Z.lt_ge_cases (Z.of_nat (length (buffer self ++ batch))) (buffer_size self)).
  - left. split; [assumption | now apply save_data_below].
  - right. split; [assumption | now apply save_data_reached].
Qed.

Lemma save_all_cons (self : StoreApiAdapter) (batch : list ProcessedAgentData)
    (net : post_outcome) (rest : list (list ProcessedAgentData * post_outcome)) :
  save_all self ((batch, net) :: rest)
  = ((save_data self batch net).1.1 :: (save_all (save_data self batch net).1.2 rest).1.1,
     (save_all (save_data self batch net).1.2 rest).1.2,
     (save_data self batch net).2 ++ (save_all (save_data self batch net).1.2 rest).2).
Proof.
  cbn [save_all]. destruct (save_data self batch net) as [[r s1] sent].
  cbn [fst snd]. now destruct (save_all s1 rest) as [[rs s2] sent'].
Qed.

(** X1.  Every record that was in the buffer or was enqueued during a run is,
    at the end, either in a batch handed to [send_data] or still in the
    buffer: once, and in enqueue order.  One result is returned per
    call. *)
Theorem save_all_accounts_for_every_record
    (calls : list (list ProcessedAgentData * post_outcome)) (self : StoreApiAdapter) :
  concat (save_all self calls).2 ++ buffer (save_all self calls).1.2
  = buffer self ++ enqueued calls
  ∧ length (save_all self calls).1.1 = length calls.
Proof.
  revert self. induction calls as [| [batch net] rest IH]; intros self.
  - cbn. now rewrite app_nil_r.
  - rewrite save_all_cons. cbn [fst snd length].
    destruct (IH (save_data self batch net).1.2) as [IHrec IHlen].
    rewrite IHlen. split; [| reflexivity].
    rewrite concat_app, <- app_assoc, IHrec.
    unfold enqueued. cbn [map fst concat]. rewrite !app_assoc. f_equal.
    destruct (save_data_cases self batch net) as [[_ ->] | [_ ->]];
      cbn [fst snd buffer set_buffer concat app]; now rewrite ?app_nil_r.
Qed.

(** The adapter's configuration is never changed by a run. *)
Lemma save_all_keeps_configuration
    (calls : list (list ProcessedAgentData * post_outcome)) (self : StoreApiAdapter) :
  buffer_size (save_all self calls).1.2 = buffer_size self
  ∧ api_base_url (save_all self calls).1.2 = api_base_url self.
Proof.
  revert self. induction calls as [| [batch net] rest IH]; intros self; [easy |].
  rewrite save_all_cons. cbn [fst snd].
  destruct (IH (save_data self batch net).1.2) as [-> ->].
  destruct (save_data_cases self batch net) as [[_ ->] | [_ ->]]; easy.
Qed.

(** X2.  With a positive [buffer_size], the buffer left by a call holds fewer
    than [buffer_size] records, whatever it held before and whatever the
    network answered; so it does after every non-empty run. *)
Theorem save_all_bounds_the_buffer
    (calls : list (list ProcessedAgentData * post_outcome)) (self : StoreApiAdapter) :
  0 < buffer_size self →
  calls ≠ [] →
  Z.of_nat (length (buffer (save_all self calls).1.2)) < buffer_size self.
Proof.
  revert self. induction calls as [| [batch net] rest IH]; intros self Hpos Hne; [done |].
  rewrite save_all_cons. cbn [fst snd].
  assert (Hstep : buffer_size (save_data self batch net).1.2 = buffer_size self
                  ∧ Z.of_nat (length (buffer (save_data self batch net).1.2))
                    < buffer_size self).
  { destruct (save_data_cases self batch net) as [[Hlt ->] | [_ ->]];
      cbn [fst snd buffer buffer_size set_buffer length]; split; auto; lia. }
  destruct Hstep as [Hsize Hlen].
  destruct rest as [| c rest'].
  - cbn [save_all fst snd]. exact Hlen.
  - rewrite <- Hsize. apply IH; [now rewrite Hsize | done].
Qed.

Lemma save_all_bounds_the_buffer_witness :
  Z.of_nat (length (buffer (save_all adapter_2_holding_a
                              [([rec_b; rec_a; rec_b], http_500); ([rec_a], PostRaises)]).1.2))
  < buffer_size adapter_2_holding_a.
Proof.
  apply (save_all_bounds_the_buffer
           [([rec_b; rec_a; rec_b], http_500); ([rec_a], PostRaises)] adapter_2_holding_a).
  - reflexivity.
  - discriminate.
Defined.

(** X3.  A batch is handed to [send_data] only when it holds at least
    [buffer_size] records. *)
Theorem save_all_sends_full_batches
    (calls : list (list ProcessedAgentData * post_outcome)) (self : StoreApiAdapter)
    (sent : list ProcessedAgentData) :
  sent ∈ (save_all self calls).2 →
  buffer_size self ≤ Z.of_nat (length sent).
Proof.
  revert self. induction calls as [| [batch net] rest IH]; intros self Hin.
  - cbn in Hin. inversion Hin.
  - rewrite save_all_cons in Hin. cbn [fst snd] in Hin.
    apply elem_of_app in Hin as [Hin | Hin].
    + destruct (save_data_cases self batch net) as [[_ Heq] | [Hle Heq]];
        rewrite Heq in Hin; cbn [snd] in Hin.
      * inversion Hin.
      * apply list_elem_of_singleton in Hin. now subst sent.
    + apply IH in Hin.
      destruct (save_data_cases self batch net) as [[_ Heq] | [_ Heq]];
        rewrite Heq in Hin; exact Hin.
Qed.

Lemma save_all_sends_full_batches_witness :
  buffer_size adapter_2 ≤ Z.of_nat (length [rec_a; rec_b; rec_b]).
Proof.
  apply (save_all_sends_full_batches
           [([rec_a], http_200); ([rec_b; rec_b], http_500)] adapter_2 [rec_a; rec_b; rec_b]).
  cbn. left.
Defined.

(** X4.  Records enqueued one at a time into a buffer that is below a positive
    [buffer_size]: every batch handed to [send_data] holds exactly
    [buffer_size] records, so the number of batches and the size of the
    buffer left are the quotient and the remainder of the number of
    records by [buffer_size]. *)
Theorem save_all_one_by_one
    (calls : list (list ProcessedAgentData * post_outcome)) (self : StoreApiAdapter) :
  0 < buffer_size self →
  Z.of_nat (length (buffer self)) < buffer_size self →
  (∀ c, c ∈ calls → length c.1 = 1%nat) →
  (∀ sent, sent ∈ (save_all self calls).2 → Z.of_nat (length sent) = buffer_size self)
  ∧ Z.of_nat (length (save_all self calls).2)
    = (Z.of_nat (length (buffer self)) + Z.of_nat (length calls)) `div` buffer_size self
  ∧ Z.of_nat (length (buffer (save_all self calls).1.2))
    = (Z.of_nat (length (buffer self)) + Z.of_nat (length calls)) `mod` buffer_size self.
Proof.
  revert self. induction calls as [| [batch net] rest IH]; intros self Hpos Hlt Hone.
  - cbn [save_all fst snd length]. rewrite Z.add_0_r.
    split; [intros sent Hin; inversion Hin |].
    rewrite Z.div_small, Z.mod_small by lia. easy.
  - assert (Hbatch : length batch = 1%nat) by (apply (Hone (batch, net)); left).
    assert (Hrest : ∀ c, c ∈ rest → length c.1 = 1%nat)
      by (intros c Hc; apply Hone; now right).
    rewrite save_all_cons. cbn [fst snd length].
    destruct (save_data_cases self batch net) as [[Hbelow Heq] | [Hreach Heq]];
      rewrite Heq; cbn [fst snd app].
    + rewrite length_app, Hbatch in Hbelow.
      destruct (IH (set_buffer (buffer self ++ batch) self)) as (Hall & Hdiv & Hmod);
        [exact Hpos | cbn; rewrite length_app, Hbatch; lia | exact Hrest |].
      cbn [buffer buffer_size set_buffer app] in *.
      rewrite length_app, Hbatch in Hdiv, Hmod.
      split; [exact Hall |].
      split; [rewrite Hdiv | rewrite Hmod]; f_equal; lia.
    + rewrite length_app, Hbatch in Hreach.
      destruct (IH (set_buffer [] self)) as (Hall & Hdiv & Hmod);
        [exact Hpos | cbn; lia | exact Hrest |].
      cbn [buffer buffer_size set_buffer length] in *.
      assert (Hfull : Z.of_nat (length (buffer self) + 1) = buffer_size self) by lia.
      replace (Z.of_nat (length (buffer self)) + Z.of_nat (S (length rest)))
        with (Z.of_nat (length rest) + 1 * buffer_size self) by lia.
      rewrite Z.div_add, Z.mod_add by lia.
      split; [| split].
      * intros sent Hin. apply elem_of_cons in Hin as [-> | Hin]; [| now apply Hall].
        rewrite length_app, Hbatch. exact Hfull.
      * rewrite Nat2Z.inj_succ, Hdiv. cbn [Z.of_nat]. now rewrite Z.add_0_l.
      * rewrite Hmod. cbn [Z.of_nat]. now rewrite Z.add_0_l.
Qed.

Lemma save_all_one_by_one_witness :
  let calls := [([rec_a], http_200); ([rec_b], http_500); ([rec_b], http_200)] in
  Z.of_nat (length (save_all adapter_2 calls).2) = 3 `div` 2
  ∧ Z.of_nat (length (buffer (save_all adapter_2 calls).1.2)) = 3 `mod` 2.
Proof.
  intros calls.
  destruct (save_all_one_by_one calls adapter_2) as (_ & Hdiv & Hmod).
  - reflexivity.
  - reflexivity.
  - intros c Hc. repeat (apply elem_of_cons in Hc as [-> | Hc]; [reflexivity |]).
    inversion Hc.
  - split; [exact Hdiv | exact Hmod].
Defined.

End ForwarderRuns.

(** ** Notification and ingestion, case by case *)
Section IngestionRuns.

Import Store.
Local Open Scope py_scope.

Lemma send_data_to_subscribers_quiet (u : Z) (data : PyValue) (w : World) :
  channels u w = ∅ →
  send_data_to_subscribers u data w
  = (Ok tt, set_trace (trace w ++ [Notified u data]) w).
Proof.
  intros Hnone. rewrite send_data_to_subscribers_unfold. cbn zeta.
  unfold channels in Hnone.
  destruct (subscriptions w !! u) as [wss |]; [| reflexivity].
  cbn in Hnone. subst wss. now rewrite elements_empty.
Qed.

(** X5.  With nobody registered under the user (no key, or a key whose set has
    become empty), [send_data_to_subscribers] does not evaluate
    [json.dumps]: it succeeds for every [data], the [CursorResult] the
    ingestion passes included, and sends nothing. *)
Theorem send_data_to_subscribers_nobody (u : Z) (data : PyValue) (w : World) :
  channels u w = ∅ →
  send_data_to_subscribers u data w
  = (Ok tt, set_trace (trace w ++ [Notified u data]) w)
  ∧ sent_during w (send_data_to_subscribers u data w).2 = [].
Proof.
  intros Hnone. rewrite send_data_to_subscribers_quiet by exact Hnone.
  split; [reflexivity |]. apply sent_during_app. cbn. now rewrite app_nil_r.
Qed.

Lemma send_data_to_subscribers_nobody_witness :
  let w := (websocket_endpoint 1%positive 5 [Text "ping"; Disconnect] world0).2 in
  send_data_to_subscribers 5
    (PyCursorResult {| rowcount := 1; inserted_primary_key := Some 1 |}) w
  = (Ok tt,
     set_trace [Notified 5 (PyCursorResult {| rowcount := 1;
                                              inserted_primary_key := Some 1 |})] w)
  ∧ sent_during w
      (send_data_to_subscribers 5
         (PyCursorResult {| rowcount := 1; inserted_primary_key := Some 1 |}) w).2 = [].
Proof.
  intros w.
  apply (send_data_to_subscribers_nobody 5
           (PyCursorResult {| rowcount := 1; inserted_primary_key := Some 1 |}) w).
  compute_done.
Defined.

(** With somebody registered under the user, a [CursorResult] makes the
    first turn of the loop raise [TypeError], before anything is sent. *)
Lemma send_data_to_subscribers_cursor (u : Z) (result : CursorResult) (w : World) :
  channels u w ≠ ∅ →
  send_data_to_subscribers u (PyCursorResult result) w
  = (Raise TypeError, set_trace (trace w ++ [Notified u (PyCursorResult result)]) w).
Proof.
  intros Hsome. rewrite send_data_to_subscribers_unfold. cbn zeta.
  unfold channels in Hsome.
  destruct (subscriptions w !! u) as [wss |]; [| done].
  cbn in Hsome. destruct (elements wss) as [| c l] eqn:Hl.
  - apply elements_empty_inv in Hl. apply leibniz_equiv in Hl. contradiction.
  - now rewrite for_each_cons, send_one_unfold.
Qed.

(** X6.  Whatever the data and the state of the sockets, a notification leaves
    the registry, the set of closed sockets and the table as they were; it
    only appends to the outbox, and only sends to sockets registered under
    the user. *)
Theorem send_data_to_subscribers_touches_outbox_only (u : Z) (data : PyValue) (w : World) :
  let w' := (send_data_to_subscribers u data w).2 in
  subscriptions w' = subscriptions w
  ∧ closed w' = closed w
  ∧ table w' = table w
  ∧ ∃ extra, outbox w' = outbox w ++ extra ∧ ∀ p, p ∈ extra → p.1 ∈ channels u w.
Proof.
  intros w'. subst w'.
  destruct (send_data_to_subscribers_frame u data w) as (o & Ho).
  rewrite Ho. cbn [subscriptions closed table set_outbox set_trace].
  do 3 (split; [reflexivity |]).
  rewrite <- Ho. rewrite send_data_to_subscribers_unfold. cbn zeta.
  unfold channels.
  destruct (subscriptions w !! u) as [wss |]; cbn [default].
  - destruct (for_each_send_targets data (elements wss)
                (set_trace (trace w ++ [Notified u data]) w)) as (extra & Hbox & Hin).
    exists extra. split; [exact Hbox |].
    intros p Hp. apply elem_of_elements. now apply Hin.
  - exists []. cbn. rewrite app_nil_r. split; [reflexivity | intros p Hp; inversion Hp].
Qed.

Lemma create_loop_quiet (faults : nat → db_fault) (data : list ProcessedAgentData) :
  ∀ (k : nat) (w : World),
    session w = table w →
    (∀ j, (j < length data)%nat → faults (k + j)%nat = NoFault) →
    (∀ item, item ∈ data → channels (user_id (agent_data item)) w = ∅) →
    create_loop faults k data w = (Ok tt, ingested data w).
Proof.
  induction data as [| item rest IH]; intros k w Hs Hfaults Hquiet.
  - cbn. unfold ret, ingested. cbn. rewrite !app_nil_r, Z.add_0_r.
    destruct w; cbn in *; now subst.
  - rewrite create_loop_cons, persist_and_notify_unfold. cbn zeta.
    rewrite <- (Nat.add_0_r k) at 1. rewrite Hfaults by (cbn; lia).
    rewrite send_data_to_subscribers_quiet by (apply (Hquiet item); left).
    rewrite IH.
    + unfold ingested.
      cbn [table session next_id subscriptions closed outbox trace set_trace
           ingest_rows ingest_trace length].
      rewrite Hs, <- !app_assoc. cbn [app]. do 2 f_equal. lia.
    + reflexivity.
    + intros j Hj. replace (S k + j)%nat with (k + S j)%nat by lia.
      apply Hfaults. cbn. lia.
    + intros it Hit. apply (Hquiet it). now right.
Qed.

Lemma create_processed_agent_data_quiet (faults : nat → db_fault)
    (data : list ProcessedAgentData) (w : World) :
  (∀ j, (j < length data)%nat → faults j = NoFault) →
  (∀ item, item ∈ data → channels (user_id (agent_data item)) w = ∅) →
  create_processed_agent_data faults data w = (Ok tt, ingested data w).
Proof.
  intros Hfaults Hquiet. rewrite create_processed_agent_data_unfold.
  now rewrite create_loop_quiet.
Qed.

Lemma ingest_rows_app (l1 l2 : list ProcessedAgentData) :
  ∀ id, ingest_rows id (l1 ++ l2)
        = ingest_rows id l1 ++ ingest_rows (id + Z.of_nat (length l1)) l2.
Proof.
  induction l1 as [| item l1 IH]; intros id.
  - cbn. now rewrite Z.add_0_r.
  - cbn [app ingest_rows length]. rewrite IH. do 3 f_equal. lia.
Qed.

Lemma ingest_rows_ids (data : list ProcessedAgentData) :
  ∀ id r, r ∈ ingest_rows id data → id ≤ InDB.id r < id + Z.of_nat (length data).
Proof.
  induction data as [| item rest IH]; intros id r Hr.
  - inversion Hr.
  - cbn [ingest_rows length] in *. apply elem_of_cons in Hr as [-> | Hr].
    + cbn. lia.
    + apply IH in Hr. lia.
Qed.

(** X7.  A batch with no database fault and no subscriber for any of its users
    (the empty batch included) is ingested whole: the call returns, the
    listing afterwards is the former listing followed by one row per
    record, in order and with consecutive identifiers, and nothing is
    sent. *)
Theorem create_then_list (faults : nat → db_fault)
    (data : list ProcessedAgentData) (w : World) :
  (∀ j, (j < length data)%nat → faults j = NoFault) →
  (∀ item, item ∈ data → channels (user_id (agent_data item)) w = ∅) →
  let r := create_processed_agent_data faults data w in
  r.1 = Ok tt
  ∧ (list_processed_agent_data w).1 = Ok (table w)
  ∧ (list_processed_agent_data r.2).1 = Ok (table w ++ ingest_rows (next_id w) data)
  ∧ outbox r.2 = outbox w
  ∧ next_id r.2 = next_id w + Z.of_nat (length data).
Proof.
  intros Hfaults Hquiet r. subst r.
  rewrite create_processed_agent_data_quiet by assumption.
  repeat split.
Qed.

Lemma create_then_list_witness :
  let r := create_processed_agent_data (λ _, NoFault) [Hub.rec_a; Hub.rec_b] world_closed_2 in
  r.1 = Ok tt
  ∧ (list_processed_agent_data r.2).1
    = Ok [insert_values Hub.rec_a 1; insert_values Hub.rec_b 2]
  ∧ outbox r.2 = [].
Proof.
  intros r.
  destruct (create_then_list (λ _, NoFault) [Hub.rec_a; Hub.rec_b] world_closed_2)
    as (Hok & _ & Hlist & Hout & _).
  - reflexivity.
  - intros item Hitem.
    repeat (apply elem_of_cons in Hitem as [-> | Hitem]; [compute_done |]).
    inversion Hitem.
  - split; [exact Hok |]. split; [exact Hlist | exact Hout].
Defined.

(** X8.  The first record of a batch whose user has a subscriber, the records
    before it being ingested as above: its row is committed, then the
    notification raises [TypeError] on the [CursorResult]; the call raises
    it, nothing has been sent and the records after it are not
    inserted. *)
Theorem create_with_subscriber_raises (faults : nat → db_fault)
    (pre rest : list ProcessedAgentData) (item : ProcessedAgentData) (w : World) :
  (∀ j, (j ≤ length pre)%nat → faults j = NoFault) →
  (∀ it, it ∈ pre → channels (user_id (agent_data it)) w = ∅) →
  channels (user_id (agent_data item)) w ≠ ∅ →
  let r := create_processed_agent_data faults (pre ++ item :: rest) w in
  r.1 = Raise TypeError
  ∧ table r.2 = table w ++ ingest_rows (next_id w) (pre ++ [item])
  ∧ outbox r.2 = outbox w.
Proof.
  intros Hfaults Hquiet Hsub r. subst r.
  rewrite create_processed_agent_data_unfold, create_loop_app.
  rewrite create_loop_quiet; [| reflexivity | intros j Hj; apply Hfaults; lia | exact Hquiet].
  rewrite Nat.add_0_l, create_loop_cons, persist_and_notify_unfold. cbn zeta.
  rewrite Hfaults by lia.
  rewrite send_data_to_subscribers_cursor by exact Hsub.
  cbn [fst snd table outbox session next_id set_session set_trace ingested].
  rewrite ingest_rows_app, <- app_assoc. easy.
Qed.

Lemma create_with_subscriber_raises_witness :
  let w := (subscribe 1 7%positive world0).2 in
  let r := create_processed_agent_data (λ _, NoFault) [Hub.rec_a; Hub.rec_b] w in
  r.1 = Raise TypeError
  ∧ table r.2 = [insert_values Hub.rec_a 1]
  ∧ outbox r.2 = [].
Proof.
  intros w.
  apply (create_with_subscriber_raises (λ _, NoFault) [] [Hub.rec_b] Hub.rec_a w).
  - reflexivity.
  - intros it Hit. inversion Hit.
  - compute_done.
Defined.

Lemma find_has_id_none (id : Z) (rows : list InDB.row) :
  find (has_id id) rows = None ↔ ∀ r, r ∈ rows → InDB.id r ≠ id.
Proof.
  induction rows as [| r rows IH]; cbn [find].
  - split; [intros _ r Hr; inversion Hr | reflexivity].
  - destruct (has_id id r) eqn:Hr.
    + split; [discriminate |]. intros Hall. exfalso.
      apply (Hall r); [left | now apply has_id_true].
    + rewrite IH. split.
      * intros Hall r' Hr'. apply elem_of_cons in Hr' as [-> | Hr']; [| now apply Hall].
        intros Hid. apply has_id_true in Hid. congruence.
      * intros Hall r' Hr'. apply Hall. now right.
Qed.

Lemma find_has_id_some (id : Z) (rows : list InDB.row) (r : InDB.row) :
  find (has_id id) rows = Some r → r ∈ rows ∧ InDB.id r = id.
Proof.
  intros Hfind. apply find_some in Hfind as [Hin Hid].
  split; [now apply list_elem_of_In | now apply has_id_true].
Qed.

Lemma find_ingest_rows (data : list ProcessedAgentData) :
  ∀ (id : Z) (k : nat) (item : ProcessedAgentData),
    data !! k = Some item →
    find (has_id (id + Z.of_nat k)) (ingest_rows id data)
    = Some (insert_values item (id + Z.of_nat k)).
Proof.
  induction data as [| it rest IH]; intros id k item Hk; [discriminate |].
  cbn [ingest_rows find]. destruct k as [| k].
  - injection Hk as ->. unfold has_id. cbn [InDB.id insert_values].
    rewrite Z.add_0_r, Z.eqb_refl. reflexivity.
  - unfold has_id at 1. cbn [InDB.id insert_values].
    destruct (Z.eqb_spec id (id + Z.of_nat (S k))) as [Heq | _]; [lia |].
    replace (id + Z.of_nat (S k)) with (id + 1 + Z.of_nat k) by lia.
    now apply IH.
Qed.

(** X9.  Insert then look up.  When the identifiers in the table are below the
    next identifier, after a batch ingested as above record [k] is read
    back under the identifier [next_id + k], with the fields it was sent
    with; the rows that were there are read back as before; and the
    identifiers of the table are again below the next identifier. *)
Theorem create_then_read (faults : nat → db_fault)
    (data : list ProcessedAgentData) (w : World) :
  ids_below_next w →
  (∀ j, (j < length data)%nat → faults j = NoFault) →
  (∀ item, item ∈ data → channels (user_id (agent_data item)) w = ∅) →
  let w' := (create_processed_agent_data faults data w).2 in
  (∀ k item, data !! k = Some item →
     (read_processed_agent_data (next_id w + Z.of_nat k) w').1
     = Ok (insert_values item (next_id w + Z.of_nat k)))
  ∧ (∀ id r, (read_processed_agent_data id w).1 = Ok r →
       (read_processed_agent_data id w').1 = Ok r)
  ∧ ids_below_next w'.
Proof.
  intros Hids Hfaults Hquiet w'. subst w'.
  rewrite create_processed_agent_data_quiet by assumption.
  cbn [snd]. split; [| split].
  - intros k item Hk. rewrite read_processed_agent_data_spec.
    cbn [table ingested]. rewrite find_has_id_app.
    destruct (find (has_id (next_id w + Z.of_nat k)) (table w)) as [r |] eqn:Hr.
    + apply find_has_id_some in Hr as [Hin Hid]. apply Hids in Hin. lia.
    + now rewrite (find_ingest_rows data _ k item).
  - intros id r. rewrite !read_processed_agent_data_spec.
    cbn [table ingested]. rewrite find_has_id_app.
    destruct (find (has_id id) (table w)); [easy | discriminate].
  - intros r Hr. cbn [table next_id ingested] in *.
    apply elem_of_app in Hr as [Hr | Hr].
    + apply Hids in Hr. lia.
    + apply ingest_rows_ids in Hr. lia.
Qed.

Lemma create_then_read_witness :
  let w' := (create_processed_agent_data (λ _, NoFault) [Hub.rec_a; Hub.rec_b] world0).2 in
  (read_processed_agent_data 2 w').1 = Ok (insert_values Hub.rec_b 2).
Proof.
  intros w'.
  destruct (create_then_read (λ _, NoFault) [Hub.rec_a; Hub.rec_b] world0)
    as (Hread & _ & _).
  - intros r Hr. inversion Hr.
  - reflexivity.
  - intros item Hitem.
    repeat (apply elem_of_cons in Hitem as [-> | Hitem]; [compute_done |]).
    inversion Hitem.
  - exact (Hread 1%nat Hub.rec_b eq_refl).
Defined.

(** X10.  [read] is a lookup: it answers 404 exactly when no row of the table
    has the identifier, otherwise a row of the table with that identifier;
    and it leaves the table as it was. *)
Theorem read_processed_agent_data_lookup (id : Z) (w : World) :
  let r := read_processed_agent_data id w in
  (r.1 = Raise (HTTPException 404 "Data not found") ↔ ∀ row, row ∈ table w → InDB.id row ≠ id)
  ∧ (∀ row, r.1 = Ok row → row ∈ table w ∧ InDB.id row = id)
  ∧ table r.2 = table w.
Proof.
  intros r. subst r. rewrite read_processed_agent_data_spec.
  split; [| split].
  - rewrite <- find_has_id_none. now destruct (find (has_id id) (table w)).
  - intros row. destruct (find (has_id id) (table w)) as [r0 |] eqn:Hr; [| discriminate].
    intros [= ->]. now apply find_has_id_some.
  - unfold read_processed_agent_data, bind, SessionLocal, execute_select_first,
      modify, get, ret. cbn.
    now destruct (find (has_id id) (table w)).
Qed.

Lemma update_processed_agent_data_table (id : Z) (data : ProcessedAgentData) (w : World) :
  table (update_processed_agent_data id data w).2 = updated_rows id data (table w).
Proof. reflexivity. Qed.

Lemma delete_processed_agent_data_table (id : Z) (w : World) :
  table (delete_processed_agent_data id w).2
  = filter (λ r, has_id id r = false) (table w).
Proof. reflexivity. Qed.

Lemma find_has_id_delete_other (id id' : Z) (rows : list InDB.row) :
  id' ≠ id →
  find (has_id id') (filter (λ r, has_id id r = false) rows) = find (has_id id') rows.
Proof.
  intros Hne. induction rows as [| r rows IH]; [reflexivity |].
  rewrite filter_cons. destruct (decide (has_id id r = false)) as [Hr | Hr].
  - cbn [find]. now rewrite IH.
  - rewrite IH. cbn [find].
    apply not_false_is_true, has_id_true in Hr.
    assert (H2 : has_id id' r = false).
    { unfold has_id. apply Z.eqb_neq. congruence. }
    now rewrite H2.
Qed.

Lemma find_has_id_new_versions_other (id id' : Z) (data : ProcessedAgentData)
    (rows : list InDB.row) :
  id' ≠ id →
  find (has_id id')
    (map (λ r, insert_values data (InDB.id r)) (filter (λ r, has_id id r = true) rows))
  = None.
Proof.
  intros Hne. apply find_has_id_none. intros r Hr.
  apply list_elem_of_In, in_map_iff in Hr as (r0 & <- & Hr0).
  apply list_elem_of_In, list_elem_of_filter in Hr0 as [Hid _].
  apply has_id_true in Hid. cbn. congruence.
Qed.

Lemma find_has_id_update_other (id id' : Z) (data : ProcessedAgentData)
    (rows : list InDB.row) :
  id' ≠ id →
  find (has_id id') (updated_rows id data rows) = find (has_id id') rows.
Proof.
  intros Hne. unfold updated_rows.
  rewrite find_has_id_app, find_has_id_delete_other, find_has_id_new_versions_other
    by exact Hne.
  now destruct (find (has_id id') rows).
Qed.

Lemma updated_rows_length (id : Z) (data : ProcessedAgentData) (rows : list InDB.row) :
  length (updated_rows id data rows) = length rows.
Proof.
  unfold updated_rows. rewrite length_app, length_map.
  induction rows as [| r rows IH]; [reflexivity |].
  rewrite !filter_cons.
  destruct (decide (has_id id r = false)) as [Hr | Hr];
    destruct (decide (has_id id r = true)) as [Hr' | Hr']; cbn [length]; try lia.
  - congruence.
  - destruct (has_id id r); congruence.
Qed.

(** X11.  Updating a row that exists: the row returned, which a read then
    returns too, has the identifier and the fields of the data sent; the
    rows of other identifiers are read as before and the table keeps its
    number of rows. *)
Theorem update_then_read (id : Z) (data : ProcessedAgentData) (w : World)
    (r0 : InDB.row) :
  (read_processed_agent_data id w).1 = Ok r0 →
  let r := update_processed_agent_data id data w in
  r.1 = Ok (Some (insert_values data id))
  ∧ (read_processed_agent_data id r.2).1 = Ok (insert_values data id)
  ∧ (∀ id', id' ≠ id →
       (read_processed_agent_data id' r.2).1 = (read_processed_agent_data id' w).1)
  ∧ length (table r.2) = length (table w).
Proof.
  intros Hread r. subst r. rewrite read_processed_agent_data_spec in Hread.
  destruct (find (has_id id) (table w)) as [r1 |] eqn:Hfind; [| discriminate].
  split; [now rewrite update_processed_agent_data_spec, Hfind |].
  split; [| split].
  - rewrite read_processed_agent_data_spec, update_processed_agent_data_table.
    now rewrite find_has_id_update, Hfind.
  - intros id' Hne.
    rewrite !read_processed_agent_data_spec, update_processed_agent_data_table.
    now rewrite find_has_id_update_other.
  - rewrite update_processed_agent_data_table. apply updated_rows_length.
Qed.

Lemma update_then_read_witness :
  let w := (create_processed_agent_data (λ _, NoFault) [Hub.rec_a; Hub.rec_b] world0).2 in
  let r := update_processed_agent_data 1 Hub.rec_b w in
  r.1 = Ok (Some (insert_values Hub.rec_b 1))
  ∧ (read_processed_agent_data 1 r.2).1 = Ok (insert_values Hub.rec_b 1)
  ∧ (read_processed_agent_data 2 r.2).1 = (read_processed_agent_data 2 w).1.
Proof.
  intros w.
  destruct (update_then_read 1 Hub.rec_b w (insert_values Hub.rec_a 1) eq_refl)
    as (Hres & Hread & Hother & _).
  split; [exact Hres |]. split; [exact Hread |]. apply Hother. discriminate.
Defined.

(** X12.  Deleting a row that exists: the row returned is the one a read
    returned before; afterwards a read of the identifier answers 404 and
    the rows of other identifiers are read as before. *)
Theorem delete_then_read (id : Z) (w : World) (r0 : InDB.row) :
  (read_processed_agent_data id w).1 = Ok r0 →
  let r := delete_processed_agent_data id w in
  r.1 = Ok (Some r0)
  ∧ (read_processed_agent_data id r.2).1 = Raise (HTTPException 404 "Data not found")
  ∧ (∀ id', id' ≠ id →
       (read_processed_agent_data id' r.2).1 = (read_processed_agent_data id' w).1).
Proof.
  intros Hread r. subst r. rewrite read_processed_agent_data_spec in Hread.
  destruct (find (has_id id) (table w)) as [r1 |] eqn:Hfind; [| discriminate].
  injection Hread as ->.
  destruct (delete_processed_agent_data_spec id w) as [Hres Hgone].
  split; [now rewrite Hres, Hfind |]. split.
  - now rewrite read_processed_agent_data_spec, Hgone.
  - intros id' Hne.
    rewrite !read_processed_agent_data_spec, delete_processed_agent_data_table.
    now rewrite find_has_id_delete_other.
Qed.

Lemma delete_then_read_witness :
  let w := (create_processed_agent_data (λ _, NoFault) [Hub.rec_a; Hub.rec_b] world0).2 in
  let r := delete_processed_agent_data 1 w in
  r.1 = Ok (Some (insert_values Hub.rec_a 1))
  ∧ (read_processed_agent_data 1 r.2).1 = Raise (HTTPException 404 "Data not found")
  ∧ (read_processed_agent_data 2 r.2).1 = Ok (insert_values Hub.rec_b 2).
Proof.
  intros w.
  destruct (delete_then_read 1 w (insert_values Hub.rec_a 1) eq_refl)
    as (Hres & Hgone & Hother).
  split; [exact Hres |]. split; [exact Hgone |].
  rewrite (Hother 2); [reflexivity | discriminate].
Defined.

Lemma filter_has_id_absent (id : Z) (rows : list InDB.row) :
  (∀ r, r ∈ rows → has_id id r = false) →
  filter (λ r, has_id id r = false) rows = rows.
Proof.
  induction rows as [| r rows IH]; intros Hno; [reflexivity |].
  rewrite filter_cons. destruct (decide (has_id id r = false)) as [_ | Hr].
  - f_equal. apply IH. intros r' Hr'. apply Hno. now right.
  - exfalso. apply Hr, Hno. left.
Qed.

Lemma updated_rows_absent (id : Z) (data : ProcessedAgentData) (rows : list InDB.row) :
  (∀ r, r ∈ rows → has_id id r = false) → updated_rows id data rows = rows.
Proof.
  intros Hno. unfold updated_rows. rewrite filter_has_id_absent by exact Hno.
  assert (Hnone : filter (λ r, has_id id r = true) rows = []).
  { induction rows as [| r rows IH]; [reflexivity |].
    rewrite filter_cons. destruct (decide (has_id id r = true)) as [Hr | _].
    - rewrite Hno in Hr by left. discriminate.
    - apply IH. intros r' Hr'. apply Hno. now right. }
  rewrite Hnone. apply app_nil_r.
Qed.

(** X13.  On an identifier that no row has, [update] and [delete] do not raise:
    each returns [None], commits and leaves the rows of the table as they
    were. *)
Theorem update_delete_absent (id : Z) (data : ProcessedAgentData) (w : World) :
  (∀ row, row ∈ table w → InDB.id row ≠ id) →
  (update_processed_agent_data id data w).1 = Ok None
  ∧ table (update_processed_agent_data id data w).2 = table w
  ∧ (delete_processed_agent_data id w).1 = Ok None
  ∧ table (delete_processed_agent_data id w).2 = table w.
Proof.
  intros Habsent.
  assert (Hfind : find (has_id id) (table w) = None) by now apply find_has_id_none.
  assert (Hno : ∀ r, r ∈ table w → has_id id r = false).
  { intros r Hr. unfold has_id. apply Z.eqb_neq. now apply Habsent. }
  rewrite update_processed_agent_data_spec, Hfind.
  destruct (delete_processed_agent_data_spec id w) as [-> _]. rewrite Hfind.
  rewrite update_processed_agent_data_table, delete_processed_agent_data_table.
  rewrite updated_rows_absent, filter_has_id_absent by exact Hno.
  repeat split.
Qed.

Lemma update_delete_absent_witness :
  let w := (create_processed_agent_data (λ _, NoFault) [Hub.rec_a] world0).2 in
  (update_processed_agent_data 9 Hub.rec_b w).1 = Ok None
  ∧ table (update_processed_agent_data 9 Hub.rec_b w).2 = table w
  ∧ (delete_processed_agent_data 9 w).1 = Ok None
  ∧ table (delete_processed_agent_data 9 w).2 = table w.
Proof.
  intros w. apply (update_delete_absent 9 Hub.rec_b w).
  intros row Hrow. apply list_elem_of_singleton in Hrow. subst row. discriminate.
Defined.

End IngestionRuns.

(** ** Connections *)
Section Connections.

Import Store.
Local Open Scope py_scope.

Lemma channels_insert_ne (u u' : Z) (wss : gset WebSocket)
    (subs : gmap Z (gset WebSocket)) (w : World) :
  u ≠ u' →
  channels u' (set_subscriptions (<[u := wss]> subs) w) = default ∅ (subs !! u').
Proof. intros Hne. unfold channels. cbn. now rewrite lookup_insert_ne. Qed.

(** X14.  A connection of a socket that was not registered under the user, from
    [accept] to its disconnection, whatever texts it receives in between
    and whatever follows: the endpoint returns without error and every
    user has the sockets it had before; but the user is now a key of the
    registry, even when this was its only socket. *)
Theorem websocket_endpoint_connect_disconnect (u : Z) (ws : WebSocket)
    (texts : list string) (rest : list ws_event) (w : World) :
  ws ∉ channels u w →
  let r := websocket_endpoint ws u ((Text <$> texts) ++ Disconnect :: rest) w in
  r.1 = Ok tt
  ∧ (∀ u', channels u' r.2 = channels u' w)
  ∧ subscriptions r.2 !! u = Some (channels u w)
  ∧ table r.2 = table w ∧ outbox r.2 = outbox w.
Proof.
  intros Hfresh r. subst r. rewrite websocket_endpoint_disconnect. cbn [fst snd].
  assert (Hsame : channels u w ∖ {[ws]} = channels u w).
  { apply set_eq. intros c. rewrite elem_of_difference, elem_of_singleton.
    split; [tauto |]. intros Hc. split; [exact Hc |]. intros ->. contradiction. }
  rewrite Hsame. split; [reflexivity |]. split; [| split].
  - intros u'. destruct (decide (u = u')) as [<- | Hne].
    + apply channels_insert.
    + now rewrite channels_insert_ne.
  - cbn. apply lookup_insert_eq.
  - split; reflexivity.
Qed.

Lemma websocket_endpoint_connect_disconnect_witness :
  let r := websocket_endpoint 1%positive 5 [Text "ping"; Disconnect; Text "late"] world0 in
  r.1 = Ok tt
  ∧ channels 5 r.2 = channels 5 world0
  ∧ subscriptions r.2 !! 5 = Some ∅.
Proof.
  intros r.
  destruct (websocket_endpoint_connect_disconnect 5 1%positive ["ping"%string]
              [Text "late"] world0) as (Hok & Hsame & Hkey & _).
  - compute_done.
  - split; [exact Hok |]. split; [exact (Hsame 5) | exact Hkey].
Defined.

(** X15.  A connection that has not been disconnected yet: the texts it receives
    are ignored, the socket is registered under its user, next to the
    sockets that were, and the other users keep theirs. *)
Theorem websocket_endpoint_stays_registered (u : Z) (ws : WebSocket)
    (texts : list string) (w : World) :
  let r := websocket_endpoint ws u (Text <$> texts) w in
  r.1 = Ok tt
  ∧ channels u r.2 = channels u w ∪ {[ws]}
  ∧ (∀ u', u ≠ u' → channels u' r.2 = channels u' w)
  ∧ r = subscribe u ws w.
Proof.
  intros r.
  assert (Hr : r = subscribe u ws w).
  { subst r. unfold websocket_endpoint. unfold bind at 1.
    destruct (subscribe u ws w) as [[[] | e] w1] eqn:Hsub.
    - induction texts as [| t texts IH]; [reflexivity | exact IH].
    - rewrite subscribe_spec in Hsub. discriminate. }
  rewrite Hr. split; [now rewrite subscribe_spec |].
  split; [apply channels_subscribe_eq |].
  split; [intros u' Hne; now apply channels_subscribe_ne | reflexivity].
Qed.

(** X16.  Registrations commute: the registry reached by two connections does
    not depend on which one was accepted first. *)
Theorem subscribe_order_irrelevant (u1 u2 : Z) (ws1 ws2 : WebSocket) (w : World) :
  (subscribe u1 ws1 ;; subscribe u2 ws2) w = (subscribe u2 ws2 ;; subscribe u1 ws1) w.
Proof.
  unfold bind. rewrite !(subscribe_spec _ _ w). rewrite !subscribe_spec.
  destruct (decide (u1 = u2)) as [<- | Hne].
  - rewrite !channels_insert. unfold set_subscriptions. cbn.
    rewrite !insert_insert_eq. do 3 f_equal.
    apply set_eq. intros c. rewrite !elem_of_union. tauto.
  - rewrite (channels_insert_ne u1 u2), (channels_insert_ne u2 u1) by congruence.
    fold (channels u1 w) (channels u2 w). unfold set_subscriptions. cbn.
    do 2 f_equal. now apply insert_insert_ne.
Qed.

End Connections.

(** ** The file datasource *)
Section Datasource.

Import Agent.
Import CSVDatasourceReader.

Context {A : Type}.

Lemma read_at_row (rs : list csv_row) (p : nat) (row : csv_row) (self : t A) :
  (p ≤ length rs)%nat →
  at_row rs p self →
  rs !! (p mod length rs)%nat = Some row →
  read self
  = (schema self (Some row),
     set_opened (Some {| rows := rs; remaining := drop (S (p mod length rs)) rs;
                         closed := false |}) self).
Proof.
  intros Hp Hat Hrow. unfold at_row in Hat. unfold read. rewrite Hat.
  pose proof (lookup_lt_Some _ _ _ Hrow) as Hlt.
  destruct (decide (p = length rs)) as [-> | Hne].
  - rewrite Nat.Div0.mod_same in Hrow |- *. unfold next. cbn [closed remaining rows].
    rewrite drop_all. cbn [reset closed rows remaining].
    destruct rs as [| r rs']; [discriminate |].
    injection Hrow as ->. reflexivity.
  - assert (Hsmall : (p mod length rs = p)%nat) by (apply Nat.mod_small; lia).
    rewrite Hsmall in Hrow |- *. unfold next. cbn [closed remaining rows].
    now rewrite (drop_S _ _ _ Hrow).
Qed.

Lemma after_reads_S (n : nat) (self : t A) :
  after_reads (S n) self = (read (after_reads n self)).2.
Proof. reflexivity. Qed.

Lemma after_reads_at_row (rs : list csv_row) (self : t A) :
  rs ≠ [] →
  at_row rs 0 self →
  ∀ n, ∃ p, (p ≤ length rs)%nat
            ∧ (p mod length rs = n mod length rs)%nat
            ∧ at_row rs p (after_reads n self)
            ∧ schema (after_reads n self) = schema self.
Proof.
  intros Hne Hat.
  assert (Hlen : (0 < length rs)%nat) by (destruct rs; [done | cbn; lia]).
  induction n as [| n (p & Hp & Hmod & Hatp & Hschema)].
  - exists 0%nat. repeat split; [lia | exact Hat].
  - assert (Hrow : is_Some (rs !! (p mod length rs)%nat)).
    { apply lookup_lt_is_Some. apply Nat.mod_upper_bound. lia. }
    destruct Hrow as [row Hrow].
    exists (S (p mod length rs)).
    rewrite after_reads_S, (read_at_row rs p row) by assumption.
    pose proof (Nat.mod_upper_bound p (length rs)) as Hub.
    split; [lia |]. split; [| split; [reflexivity | exact Hschema]].
    replace (S (p mod length rs)) with (p mod length rs + 1)%nat by lia.
    replace (S n) with (n + 1)%nat by lia.
    rewrite Hmod. apply Nat.Div0.add_mod_idemp_l.
Qed.

(** What call [n] of [read] returns, for a reader at the start of a file
    that has rows. *)
Lemma read_nth_at_start (rs : list csv_row) (self : t A) (n : nat) (row : csv_row) :
  at_row rs 0 self →
  rs !! (n mod length rs)%nat = Some row →
  read_nth n self = schema self (Some row).
Proof.
  intros Hat Hrow.
  assert (Hne : rs ≠ []) by (intros ->; discriminate).
  destruct (after_reads_at_row rs self Hne Hat n) as (p & Hp & Hmod & Hatp & Hschema).
  unfold read_nth. rewrite (read_at_row rs p row); [| assumption .. |].
  - cbn [fst]. now rewrite Hschema.
  - now rewrite Hmod.
Qed.

Lemma startReading_at_row (fs : file_system) (self : t A) (rs : list csv_row) :
  fs (filename self) = Some rs →
  startReading fs self
  = (Ok tt, set_opened (Some {| rows := rs; remaining := rs; closed := false |}) self).
Proof. intros Hfs. unfold startReading. now rewrite Hfs. Qed.

(** X17.  Cyclic replay.  After [startReading] on a file whose data rows are
    [rs], call [n] of [read] (counted from 0) hands row [n mod length rs]
    to the schema and returns what the schema returns: after the last row
    the reader starts again from the first one. *)
Theorem read_replays_the_file (fs : file_system) (self : t A) (rs : list csv_row)
    (n : nat) (row : csv_row) :
  fs (filename self) = Some rs →
  rs !! (n mod length rs)%nat = Some row →
  read_nth n (startReading fs self).2 = schema self (Some row).
Proof.
  intros Hfs Hrow. rewrite (startReading_at_row fs self rs Hfs). cbn [snd].
  now rewrite (read_nth_at_start rs _ n row).
Qed.

(** X18.  A file without data rows: every call of [read] gives [None] to the
    schema and returns what the schema returns for it. *)
Theorem read_of_empty_file (fs : file_system) (self : t A) (n : nat) :
  fs (filename self) = Some [] →
  read_nth n (startReading fs self).2 = schema self None.
Proof.
  intros Hfs. rewrite (startReading_at_row fs self [] Hfs). cbn [snd].
  unfold read_nth.
  assert (Hfix : ∀ s : t A,
             opened s = Some {| rows := []; remaining := []; closed := false |} →
             read s = (schema s None, s)).
  { intros s Hs. unfold read. rewrite Hs. cbn. unfold set_opened.
    rewrite <- Hs. now destruct s. }
  assert (Hall : after_reads n
                   (set_opened (Some {| rows := []; remaining := []; closed := false |}) self)
                 = set_opened (Some {| rows := []; remaining := []; closed := false |}) self).
  { induction n as [| n IH]; [reflexivity |].
    rewrite after_reads_S, IH. now rewrite Hfix. }
  rewrite Hall. now rewrite Hfix.
Qed.

(** X19.  Outside a reading session [read] raises and changes nothing: with
    [AttributeError] when [startReading] was never called (and so does
    [stopReading]), with [ValueError] at every call after
    [stopReading]. *)
Theorem read_outside_a_session (self : t A) :
  (opened self = None →
   read self = (Raise AttributeError, self)
   ∧ stopReading self = (Raise AttributeError, self))
  ∧ (∀ f, opened self = Some f →
       (stopReading self).1 = Ok tt
       ∧ ∀ n, read_nth n (stopReading self).2 = Raise ValueError
              ∧ after_reads n (stopReading self).2 = (stopReading self).2).
Proof.
  split.
  - intros Hnone. unfold read, stopReading. now rewrite Hnone.
  - intros f Hf. unfold stopReading. rewrite Hf. cbn [fst snd].
    split; [reflexivity |].
    set (s := set_opened _ self).
    assert (Hfix : read s = (Raise ValueError, s)) by reflexivity.
    assert (Hall : ∀ n, after_reads n s = s).
    { induction n as [| n IH]; [reflexivity |].
      rewrite after_reads_S, IH. now rewrite Hfix. }
    intros n. unfold read_nth. now rewrite Hall, Hfix.
Qed.

End Datasource.

Lemma read_replays_the_file_witness :
  Agent.CSVDatasourceReader.read_nth 4
    (Agent.CSVDatasourceReader.startReading Agent.example_fs
       (Agent.CSVDatasourceReader.init "accelerometer.csv" (Agent.column_schema "z"))).2
  = Agent.Ok "17000"%string.
Proof.
  apply (read_replays_the_file Agent.example_fs
           (Agent.CSVDatasourceReader.init "accelerometer.csv" (Agent.column_schema "z"))
           [Agent.row_of "z" "16000"; Agent.row_of "z" "17000"; Agent.row_of "z" "13000"]
           4 (Agent.row_of "z" "17000")).
  - reflexivity.
  - reflexivity.
Defined.

Lemma read_of_empty_file_witness :
  Agent.CSVDatasourceReader.read_nth 3
    (Agent.CSVDatasourceReader.startReading Agent.example_fs
       (Agent.CSVDatasourceReader.init "empty.csv" (Agent.column_schema "z"))).2
  = Agent.Raise (Agent.ValidationError "Invalid input type.").
Proof.
  apply (read_of_empty_file Agent.example_fs
           (Agent.CSVDatasourceReader.init "empty.csv" (Agent.column_schema "z")) 3).
  reflexivity.
Defined.

Section TwoStreams.

Import Agent.
Import FileDatasource.

Context {Acc Gps : Type}.

Lemma startReading_both (fs : file_system) (self : t Acc Gps) (ra rg : list csv_row) :
  fs (CSVDatasourceReader.filename (readers_ACCELEROMETER self)) = Some ra →
  fs (CSVDatasourceReader.filename (readers_GPS self)) = Some rg →
  startReading fs self
  = (Ok tt,
     {| readers_GPS := (CSVDatasourceReader.startReading fs (readers_GPS self)).2;
        readers_ACCELEROMETER :=
          (CSVDatasourceReader.startReading fs (readers_ACCELEROMETER self)).2 |}).
Proof.
  intros Ha Hg. unfold startReading.
  now rewrite (startReading_at_row fs _ rg Hg), (startReading_at_row fs _ ra Ha).
Qed.

(** While the accelerometer rows all load, the two readers advance
    together, one row per call. *)
Lemma after_reads_readers (now : nat → datetime) (USER_ID : Z) (ra : list csv_row)
    (self : t Acc Gps) :
  ra ≠ [] →
  CSVDatasourceReader.at_row ra 0 (readers_ACCELEROMETER self) →
  (∀ row, row ∈ ra →
     ∃ a, CSVDatasourceReader.schema (readers_ACCELEROMETER self) (Some row) = Ok a) →
  ∀ n,
    readers_ACCELEROMETER (after_reads now USER_ID n self)
    = CSVDatasourceReader.after_reads n (readers_ACCELEROMETER self)
    ∧ readers_GPS (after_reads now USER_ID n self)
      = CSVDatasourceReader.after_reads n (readers_GPS self).
Proof.
  intros Hne Hat Hload.
  assert (Hlen : (0 < length ra)%nat) by (destruct ra; [done | cbn; lia]).
  induction n as [| n [IHa IHg]]; [split; reflexivity |].
  cbn [after_reads]. unfold read. rewrite IHa, IHg.
  assert (Hrow : is_Some (ra !! (n mod length ra)%nat)).
  { apply lookup_lt_is_Some. apply Nat.mod_upper_bound. lia. }
  destruct Hrow as [row Hrow].
  destruct (Hload row) as [a Ha]; [now apply list_elem_of_lookup_2 with (n mod length ra)%nat |].
  pose proof (read_nth_at_start ra (readers_ACCELEROMETER self) n row Hat Hrow) as Hnth.
  unfold CSVDatasourceReader.read_nth in Hnth. rewrite Ha in Hnth.
  rewrite !after_reads_S.
  destruct (CSVDatasourceReader.read
              (CSVDatasourceReader.after_reads n (readers_ACCELEROMETER self)))
    as [ra_res acc_reader].
  cbn [fst snd] in *. subst ra_res.
  destruct (CSVDatasourceReader.read
              (CSVDatasourceReader.after_reads n (readers_GPS self)))
    as [[g | e] gps_reader]; split; reflexivity.
Qed.

(** X20.  The two files are replayed independently.  After [startReading], if
    every accelerometer row loads, call [n] of [read] pairs accelerometer
    row [n mod] (number of accelerometer rows) with GPS row [n mod] (number
    of GPS rows), stamped with the clock and the configured user; it
    returns [None] when the GPS row does not load. *)
Theorem read_pairs_the_two_files (fs : file_system) (now : nat → datetime) (USER_ID : Z)
    (self : t Acc Gps) (ra rg : list csv_row) (n : nat) (row_a row_g : csv_row) :
  fs (CSVDatasourceReader.filename (readers_ACCELEROMETER self)) = Some ra →
  fs (CSVDatasourceReader.filename (readers_GPS self)) = Some rg →
  (∀ row, row ∈ ra →
     ∃ a, CSVDatasourceReader.schema (readers_ACCELEROMETER self) (Some row) = Ok a) →
  ra !! (n mod length ra)%nat = Some row_a →
  rg !! (n mod length rg)%nat = Some row_g →
  read_nth now USER_ID n (startReading fs self).2
  = match CSVDatasourceReader.schema (readers_ACCELEROMETER self) (Some row_a),
          CSVDatasourceReader.schema (readers_GPS self) (Some row_g) with
    | Ok a, Ok g =>
        Some {| user_id := USER_ID; accelerometer := a; gps := g; timestamp := now n |}
    | _, _ => None
    end.
Proof.
  intros Hfa Hfg Hload Ha Hg.
  rewrite (startReading_both fs self ra rg Hfa Hfg). cbn [snd].
  rewrite (startReading_at_row fs _ rg Hfg), (startReading_at_row fs _ ra Hfa). cbn [snd].
  set (acc0 := CSVDatasourceReader.set_opened _ (readers_ACCELEROMETER self)).
  set (gps0 := CSVDatasourceReader.set_opened _ (readers_GPS self)).
  assert (Hne : ra ≠ []) by (intros ->; discriminate).
  destruct (after_reads_readers now USER_ID ra
              {| readers_GPS := gps0; readers_ACCELEROMETER := acc0 |} Hne)
    with (n := n) as [Hra Hrg]; [reflexivity | exact Hload |].
  unfold read_nth, read. rewrite Hra, Hrg. cbn [readers_GPS readers_ACCELEROMETER].
  pose proof (read_nth_at_start ra acc0 n row_a eq_refl Ha) as Hnth_a.
  pose proof (read_nth_at_start rg gps0 n row_g eq_refl Hg) as Hnth_g.
  unfold CSVDatasourceReader.read_nth in Hnth_a, Hnth_g.
  destruct (CSVDatasourceReader.read (CSVDatasourceReader.after_reads n acc0))
    as [res_a acc_reader].
  destruct (CSVDatasourceReader.read (CSVDatasourceReader.after_reads n gps0))
    as [res_g gps_reader].
  cbn [fst snd] in *. subst res_a res_g.
  cbn [CSVDatasourceReader.schema CSVDatasourceReader.set_opened acc0 gps0].
  destruct (CSVDatasourceReader.schema (readers_ACCELEROMETER self) (Some row_a));
    [| reflexivity].
  now destruct (CSVDatasourceReader.schema (readers_GPS self) (Some row_g)).
Qed.

(** X21.  When the GPS file is missing, [startReading] raises at the first
    reader and does not open the accelerometer reader; [read] catches the
    error this causes: every call returns [None]. *)
Theorem read_after_failed_start (fs : file_system) (now : nat → datetime) (USER_ID : Z)
    (self : t Acc Gps) (n : nat) :
  fs (CSVDatasourceReader.filename (readers_GPS self)) = None →
  CSVDatasourceReader.opened (readers_ACCELEROMETER self) = None →
  (startReading fs self).1 = Raise FileNotFoundError
  ∧ CSVDatasourceReader.opened (readers_ACCELEROMETER (startReading fs self).2) = None
  ∧ read_nth now USER_ID n (startReading fs self).2 = None.
Proof.
  intros Hfs Hclosed. unfold startReading, CSVDatasourceReader.startReading.
  rewrite Hfs. cbn [fst snd readers_ACCELEROMETER].
  split; [reflexivity |]. split; [exact Hclosed |].
  set (s := {| readers_GPS := readers_GPS self;
               readers_ACCELEROMETER := readers_ACCELEROMETER self |}).
  assert (Hfix : ∀ k, read (now k) USER_ID s = (None, s)).
  { intros k. unfold read, CSVDatasourceReader.read. cbn. now rewrite Hclosed. }
  assert (Hall : ∀ k, after_reads now USER_ID k s = s).
  { induction k as [| k IH]; [reflexivity |]. cbn [after_reads]. now rewrite IH, Hfix. }
  unfold read_nth. now rewrite Hall, Hfix.
Qed.

(** X22.  An accelerometer row that does not load makes [read] return [None]
    before the GPS reader is used: the next call pairs the following
    accelerometer row with the GPS row that was left. *)
Theorem read_after_accelerometer_error (fs : file_system) (now : nat → datetime)
    (USER_ID : Z) (self : t Acc Gps) (r0 r1 g0 : csv_row) (ra rg : list csv_row)
    (e : exn) (a1 : Acc) (v0 : Gps) :
  fs (CSVDatasourceReader.filename (readers_ACCELEROMETER self)) = Some (r0 :: r1 :: ra) →
  fs (CSVDatasourceReader.filename (readers_GPS self)) = Some (g0 :: rg) →
  CSVDatasourceReader.schema (readers_ACCELEROMETER self) (Some r0) = Raise e →
  CSVDatasourceReader.schema (readers_ACCELEROMETER self) (Some r1) = Ok a1 →
  CSVDatasourceReader.schema (readers_GPS self) (Some g0) = Ok v0 →
  read_nth now USER_ID 0 (startReading fs self).2 = None
  ∧ read_nth now USER_ID 1 (startReading fs self).2
    = Some {| user_id := USER_ID; accelerometer := a1; gps := v0; timestamp := now 1%nat |}.
Proof.
  intros Hfa Hfg He Ha Hg.
  rewrite (startReading_both fs self _ _ Hfa Hfg). cbn [snd].
  rewrite (startReading_at_row fs _ _ Hfg), (startReading_at_row fs _ _ Hfa). cbn [snd].
  unfold read_nth. cbn [after_reads].
  unfold read, CSVDatasourceReader.read. cbn. rewrite He. cbn. now rewrite Ha, Hg.
Qed.

End TwoStreams.

Lemma read_pairs_the_two_files_witness :
  Agent.FileDatasource.read_nth (λ k, Z.of_nat k) 7 3
    (Agent.FileDatasource.startReading Agent.example_fs Agent.example_datasource).2
  = Some (Agent.FileDatasource.mkAggregatedData 7 "16000"%string "50.5"%string 3).
Proof.
  apply (read_pairs_the_two_files Agent.example_fs (λ k, Z.of_nat k) 7
           Agent.example_datasource
           [Agent.row_of "z" "16000"; Agent.row_of "z" "17000"; Agent.row_of "z" "13000"]
           [Agent.row_of "lat" "50.4"; Agent.row_of "lat" "50.5"]
           3 (Agent.row_of "z" "16000") (Agent.row_of "lat" "50.5")).
  - reflexivity.
  - reflexivity.
  - intros row Hrow.
    repeat (apply elem_of_cons in Hrow as [-> | Hrow]; [eexists; reflexivity |]).
    inversion Hrow.
  - reflexivity.
  - reflexivity.
Defined.

Lemma read_after_failed_start_witness :
  let self := Agent.FileDatasource.init "accelerometer.csv" "missing.csv"
                (Agent.column_schema "z") (Agent.column_schema "lat") in
  (Agent.FileDatasource.startReading Agent.example_fs self).1
  = Agent.Raise Agent.FileNotFoundError
  ∧ Agent.CSVDatasourceReader.opened
      (Agent.FileDatasource.readers_ACCELEROMETER
         (Agent.FileDatasource.startReading Agent.example_fs self).2) = None
  ∧ Agent.FileDatasource.read_nth (λ k, Z.of_nat k) 7 2
      (Agent.FileDatasource.startReading Agent.example_fs self).2 = None.
Proof.
  intros self.
  apply (read_after_failed_start Agent.example_fs (λ k, Z.of_nat k) 7 self 2).
  - reflexivity.
  - reflexivity.
Defined.

Lemma read_after_accelerometer_error_witness :
  let self := Agent.FileDatasource.init "accelerometer.csv" "gps.csv"
                (λ row, if decide (row = Some (Agent.row_of "z" "16000"))
                        then Agent.Raise (Agent.ValidationError "Not a valid integer.")
                        else Agent.column_schema "z" row)
                (Agent.column_schema "lat") in
  Agent.FileDatasource.read_nth (λ k, Z.of_nat k) 7 0
    (Agent.FileDatasource.startReading Agent.example_fs self).2 = None
  ∧ Agent.FileDatasource.read_nth (λ k, Z.of_nat k) 7 1
      (Agent.FileDatasource.startReading Agent.example_fs self).2
    = Some (Agent.FileDatasource.mkAggregatedData 7 "17000"%string "50.4"%string 1).
Proof.
  intros self.
  apply (read_after_accelerometer_error Agent.example_fs (λ k, Z.of_nat k) 7 self
           (Agent.row_of "z" "16000") (Agent.row_of "z" "17000") (Agent.row_of "lat" "50.4")
           [Agent.row_of "z" "13000"] [Agent.row_of "lat" "50.5"]
           (Agent.ValidationError "Not a valid integer.") "17000"%string "50.4"%string).
  - reflexivity.
  - reflexivity.
  - reflexivity.
  - reflexivity.
  - reflexivity.
Defined.
